(** * go-rst: the section lexer of [parse/lex.go]

    A shallow embedding of the lexer of the go-rst reStructuredText parser
    ([src/parse/lex.go]) together with the properties of its cursor
    operations, of its two state functions [lexStart] and [lexSection] and
    of the token stream they produce.

    Modelling conventions.
    - A Go [string] is a sequence of bytes: [list byte].
    - [Pos] and [int] are modelled by [Z].  In a run started by [lex]
      the positions stay between [0] and [len(input)] (the invariant
      [good], lemma [run_inv]) and the line counter grows by one per
      end-of-line rune, so the 64-bit wrap-around of Go's [int] never
      comes into play.  Outside a run, [backup] may take the position
      below [0]; the next slice expression then panics.
    - A Go [rune] is a [Z]; [EOF] is [-1].
    - A slice expression with indices out of range panics in Go; the
      embedding returns [Panic] there.
    - The loops of [lexStart], [lexSection] and [run] take fuel; running
      out of it is reported as [Spin], never as a result.
    - The channel [l.items] is modelled by the sequence of items sent on it
      so far, in sending order. *)

From Stdlib Require Import ZArith List Bool Lia String Ascii Strings.Byte Sorting.Sorted.
Import ListNotations.
Local Open Scope Z_scope.

(** ** Go strings *)

Definition gostring := list byte.

Definition str (s : string) : gostring := list_byte_of_string s.

Definition len (s : gostring) : Z := Z.of_nat (List.length s).

Definition byteval (b : byte) : Z := Z.of_N (Byte.to_N b).

(** [s[lo:]]; the caller checks the bounds. *)
Definition from (s : gostring) (lo : Z) : gostring := skipn (Z.to_nat lo) s.

(** [s[lo:hi]]; the caller checks the bounds. *)
Definition slice (s : gostring) (lo hi : Z) : gostring :=
  firstn (Z.to_nat (hi - lo)) (skipn (Z.to_nat lo) s).

(** ** unicode/utf8

    [lex.go] imports [utf8.DecodeRuneInString] from Go's standard library.
    The function below follows that library's decoder: the table [first]
    and the accept ranges are written out as comparisons on the leading
    byte. *)

Module utf8.

Definition RuneError : Z := 65533.

Definition locb : Z := 128.
Definition hicb : Z := 191.

(** Size of the sequence announced by the leading byte and the accepted
    range of the second byte; [None] for a byte that cannot start a
    multi-byte sequence. *)
Definition lead (s0 : Z) : option (Z * Z * Z) :=
  if (194 <=? s0) && (s0 <=? 223) then Some (2, locb, hicb)
  else if s0 =? 224 then Some (3, 160, hicb)
  else if (225 <=? s0) && (s0 <=? 236) then Some (3, locb, hicb)
  else if s0 =? 237 then Some (3, locb, 159)
  else if (238 <=? s0) && (s0 <=? 239) then Some (3, locb, hicb)
  else if s0 =? 240 then Some (4, 144, hicb)
  else if (241 <=? s0) && (s0 <=? 243) then Some (4, locb, hicb)
  else if s0 =? 244 then Some (4, locb, 143)
  else None.

Definition cont (b : Z) : bool := (locb <=? b) && (b <=? hicb).

Definition DecodeRuneInString (s : gostring) : Z * Z :=
  match s with
  | [] => (RuneError, 0)
  | b0 :: t =>
    let s0 := byteval b0 in
    if s0 <? 128 then (s0, 1)
    else
      match lead s0 with
      | None => (RuneError, 1)
      | Some (sz, lo, hi) =>
        if len s <? sz then (RuneError, 1)
        else
          match t with
          | [] => (RuneError, 1)
          | b1 :: t1 =>
            let s1 := byteval b1 in
            if (s1 <? lo) || (hi <? s1) then (RuneError, 1)
            else if sz <=? 2 then
              (Z.lor (Z.shiftl (Z.land s0 31) 6) (Z.land s1 63), 2)
            else
              match t1 with
              | [] => (RuneError, 1)
              | b2 :: t2 =>
                let s2 := byteval b2 in
                if negb (cont s2) then (RuneError, 1)
                else if sz <=? 3 then
                  (Z.lor (Z.lor (Z.shiftl (Z.land s0 15) 12)
                                (Z.shiftl (Z.land s1 63) 6))
                         (Z.land s2 63), 3)
                else
                  match t2 with
                  | [] => (RuneError, 1)
                  | b3 :: _ =>
                    let s3 := byteval b3 in
                    if negb (cont s3) then (RuneError, 1)
                    else
                      (Z.lor (Z.lor (Z.lor (Z.shiftl (Z.land s0 7) 18)
                                           (Z.shiftl (Z.land s1 63) 12))
                                    (Z.shiftl (Z.land s2 63) 6))
                             (Z.land s3 63), 4)
                  end
              end
          end
      end
  end.

End utf8.

(** ** Items *)

Inductive itemElement : Type :=
| itemEOF
| itemError
| itemTitle
| itemSectionAdornment
| itemParagraph
| itemBlockquote
| itemLiteralBlock
| itemSystemMessage
| itemSpace
| itemBlankLine.

(** The value of the [iota] constant. *)
Definition itemElement_int (t : itemElement) : Z :=
  match t with
  | itemEOF => 0
  | itemError => 1
  | itemTitle => 2
  | itemSectionAdornment => 3
  | itemParagraph => 4
  | itemBlockquote => 5
  | itemLiteralBlock => 6
  | itemSystemMessage => 7
  | itemSpace => 8
  | itemBlankLine => 9
  end.

(** [elements[t]], the result of [t.String()]. *)
Definition elements (t : itemElement) : string :=
  match t with
  | itemEOF => "itemEOF"
  | itemError => "itemError"
  | itemTitle => "itemTitle"
  | itemSectionAdornment => "itemSectionAdornment"
  | itemParagraph => "itemParagraph"
  | itemBlockquote => "itemBlockquote"
  | itemLiteralBlock => "itemLiteralBlock"
  | itemSystemMessage => "itemSystemMessage"
  | itemSpace => "itemSpace"
  | itemBlankLine => "itemBlankLine"
  end.

Definition sectionAdornments : list Z :=
  [33; 34; 35; 36; 39; 37; 38; 40; 41; 42;
   43; 44; 45; 46; 47; 58; 59; 60; 61; 62; 63; 64; 91; 92;
   93; 94; 95; 96; 123; 124; 125; 126].

Definition EOF : Z := -1.

Record item : Type := mkItem {
  ElementName : string;
  ElementType : itemElement;
  Position : Z;
  Line : Z;
  Value : gostring
}.

(** ** The lexer *)

Inductive stateFn : Type := lexStartFn | lexSectionFn.

(** The fields of [lexer]; [state] is the argument of [run], and [items]
    is the history of the channel. *)
Record lexer : Type := mkLexer {
  name : string;
  input : gostring;
  pos : Z;
  start : Z;
  width : Z;
  lastPos : Z;
  items : list item;
  line : Z
}.

Definition set_pos (l : lexer) (p : Z) : lexer :=
  mkLexer (name l) (input l) p (start l) (width l) (lastPos l) (items l) (line l).
Definition set_start (l : lexer) (p : Z) : lexer :=
  mkLexer (name l) (input l) (pos l) p (width l) (lastPos l) (items l) (line l).
Definition set_width (l : lexer) (w : Z) : lexer :=
  mkLexer (name l) (input l) (pos l) (start l) w (lastPos l) (items l) (line l).
Definition set_line (l : lexer) (n : Z) : lexer :=
  mkLexer (name l) (input l) (pos l) (start l) (width l) (lastPos l) (items l) n.
Definition send (l : lexer) (it : item) : lexer :=
  mkLexer (name l) (input l) (pos l) (start l) (width l) (lastPos l)
          (items l ++ [it]) (line l).

(** Outcome of a method call on a lexer. *)
Inductive result (A : Type) : Type :=
| Ret (a : A) (l : lexer)
| Panic (l : lexer)
| Spin (l : lexer).
Arguments Ret {A} a l.
Arguments Panic {A} l.
Arguments Spin {A} l.

Definition M (A : Type) : Type := lexer -> result A.

Definition ret {A} (a : A) : M A := fun l => Ret a l.

Definition bind {A B} (m : M A) (k : A -> M B) : M B :=
  fun l =>
    match m l with
    | Ret a l' => k a l'
    | Panic l' => Panic l'
    | Spin l' => Spin l'
    end.

Notation "x <- m ;; k" := (bind m (fun x => k))
  (at level 61, m at next level, right associativity).
Notation "m ;;; k" := (bind m (fun _ => k))
  (at level 61, right associativity).

Definition final {A} (r : result A) : lexer :=
  match r with
  | Ret _ l => l
  | Panic l => l
  | Spin l => l
  end.

(** [lex]: the freshly built lexer, before the goroutine [run] starts. *)
Definition lex (nm : string) (inp : gostring) : lexer :=
  mkLexer nm inp 0 0 0 0 [] 1.

(** emit passes an item back to the client. *)
Definition emit (t : itemElement) : M unit :=
  fun l =>
    if (0 <=? start l) && (start l <=? pos l) && (pos l <=? len (input l)) then
      Ret tt (set_start
                (send l (mkItem (elements t) t (start l) (line l)
                                (slice (input l) (start l) (pos l))))
                (pos l))
    else Panic l.

Definition backup : M unit :=
  fun l => Ret tt (set_pos l (pos l - width l)).

Definition current : M Z :=
  fun l =>
    if (0 <=? pos l) && (pos l <=? len (input l)) then
      Ret (fst (utf8.DecodeRuneInString (from (input l) (pos l)))) l
    else Panic l.

(** next returns the next rune in the input. *)
Definition next : M Z :=
  fun l =>
    if len (input l) <=? pos l then Ret EOF (set_width l 0)
    else if pos l <? 0 then Panic l
    else
      let rw := utf8.DecodeRuneInString (from (input l) (pos l)) in
      Ret (fst rw) (set_pos (set_width l (snd rw)) (pos l + snd rw)).

Definition previous : M Z :=
  backup ;;; r <- current ;; next ;;; ret r.

Definition peek : M Z :=
  r <- next ;; backup ;;; ret r.

Definition ignore : M unit :=
  fun l => Ret tt (set_start (set_pos l (pos l + 1)) (pos l + 1)).

(** isSpace reports whether r is a space character. *)
Definition isSpace (r : Z) : bool := (r =? 32) || (r =? 9).

(** isEndOfLine reports whether r is an end-of-line character. *)
Definition isEndOfLine (r : Z) : bool := (r =? 13) || (r =? 10).

Definition isSectionAdornment (r : Z) : bool :=
  existsb (fun a => a =? r) sectionAdornments.

Definition when (b : bool) (m : M unit) : M unit :=
  if b then m else ret tt.

Definition get {A} (f : lexer -> A) : M A := fun l => Ret (f l) l.

Definition spin {A} : M A := fun l => Spin l.

(** The argument [l.input[l.start:l.pos]] of a call of [log.Debugf]:
    evaluating it panics when the indices are out of range.  What is
    logged is not modelled. *)
Definition debug_slice : M unit :=
  fun l =>
    if (0 <=? start l) && (start l <=? pos l) && (pos l <=? len (input l))
    then Ret tt l
    else Panic l.

(** How one turn of a [for] loop ends. *)
Inductive flow : Type :=
| Return (st : option stateFn)
| Continue
| Break.

(** [l.line += 1] *)
Definition bump_line : M unit :=
  fun l => Ret tt (set_line l (line l + 1)).

(** [if l.next() == EOF { break }], the last statement of the loop of
    [lexStart]. *)
Definition advance : M flow :=
  e <- next ;;
  if e =? EOF then ret Break else ret Continue.

(** The body of the [for] loop of [lexStart]. *)
Definition lexStart_body : M flow :=
  n <- get (fun l => len (input l)) ;;
  if n =? 0 then emit itemEOF ;;; ret (Return None)
  else
    debug_slice ;;;
    r <- current ;;
    c <- (if isSectionAdornment r then
            p <- peek ;;
            if isSectionAdornment p then get (fun l => pos l =? 1)
            else ret false
          else ret false) ;;
    if c then ret (Return (Some lexSectionFn))
    else
      f <- (if isEndOfLine r then
              bump_line ;;;
              p <- peek ;;
              if isSectionAdornment p then ret (Return (Some lexSectionFn))
              else
                b <- get (fun l => start l <? pos l) ;;
                when b (emit itemParagraph) ;;;
                ignore ;;;
                ret Continue
            else ret Continue) ;;
      match f with
      | Continue => advance
      | _ => ret f
      end.

Fixpoint lexStart_loop (fuel : nat) : M (option stateFn) :=
  match fuel with
  | O => spin
  | S fuel' =>
    f <- lexStart_body ;;
    match f with
    | Return st => ret st
    | Continue => lexStart_loop fuel'
    | Break =>
      b <- get (fun l => start l <? pos l) ;;
      when b (emit itemParagraph) ;;;
      emit itemEOF ;;;
      ret None
    end
  end.

Definition lexStart (fuel : nat) : M (option stateFn) := lexStart_loop fuel.

(** The body of the loop [Loop] of [lexSection]; [Break] is [break Loop]. *)
Definition lexSection_body : M flow :=
  r <- next ;;
  if isSectionAdornment r then
    n <- get (fun l => len (input l)) ;;
    when (0 <? n) debug_slice ;;;
    ret Continue
  else if isEndOfLine r then
    backup ;;;
    emit itemSectionAdornment ;;;
    bump_line ;;;
    ignore ;;;
    ret Break
  else ret Continue.

Fixpoint lexSection_loop (fuel : nat) : M unit :=
  match fuel with
  | O => spin
  | S fuel' =>
    f <- lexSection_body ;;
    match f with
    | Break => ret tt
    | _ => lexSection_loop fuel'
    end
  end.

Definition lexSection (fuel : nat) : M (option stateFn) :=
  n <- get (fun l => len (input l)) ;;
  when (0 <? n) debug_slice ;;;
  p <- peek ;;
  when (isEndOfLine p) (emit itemTitle ;;; ignore) ;;;
  lexSection_loop fuel ;;;
  ret (Some lexStartFn).

Definition call (f : stateFn) (fuel : nat) : M (option stateFn) :=
  match f with
  | lexStartFn => lexStart fuel
  | lexSectionFn => lexSection fuel
  end.

(** [run]: [for l.state = lexStart; l.state != nil; { l.state = l.state(l) }],
    started at state [st]. *)
Fixpoint run_from (fuel : nat) (st : option stateFn) : M unit :=
  match st with
  | None => ret tt
  | Some f =>
    match fuel with
    | O => spin
    | S fuel' => st' <- call f fuel' ;; run_from fuel' st'
    end
  end.

Definition run (fuel : nat) : M unit := run_from fuel (Some lexStartFn).

(** The items a client receives from [lex(name, input)] within [fuel]. *)
Definition tokens (fuel : nat) (nm : string) (inp : gostring) : list item :=
  items (final (run fuel (lex nm inp))).

(** Kind and text of an item. *)
Definition kind_text (it : item) : itemElement * gostring :=
  (ElementType it, Value it).

(** ** Definitions used by the statements *)

(** The rune and the width the decoder finds at the cursor. *)
Definition rune_at (l : lexer) : Z :=
  fst (utf8.DecodeRuneInString (from (input l) (pos l))).

Definition width_at (l : lexer) : Z :=
  snd (utf8.DecodeRuneInString (from (input l) (pos l))).

(** The value a call returns, if it returns. *)
Definition returned {A} (r : result A) : option A :=
  match r with
  | Ret a _ => Some a
  | _ => None
  end.

(** What [peek] hands back and the width it leaves behind. *)
Definition peek_rune (l : lexer) : Z :=
  if len (input l) <=? pos l then EOF else rune_at l.

Definition peek_width (l : lexer) : Z :=
  if len (input l) <=? pos l then 0 else width_at l.

(** The three kinds [lexStart] and [lexSection] do send. *)
Definition emitted_kind (t : itemElement) : bool :=
  match t with
  | itemEOF | itemParagraph | itemSectionAdornment => true
  | _ => false
  end.

(** What holds of each item sent while lexing [inp]. *)
Record tok_ok (inp : gostring) (it : item) : Prop := {
  tok_kind : emitted_kind (ElementType it) = true;
  tok_name : ElementName it = elements (ElementType it);
  tok_pos : 0 <= Position it;
  tok_end : Position it + len (Value it) <= len inp;
  tok_text : Value it = slice inp (Position it) (Position it + len (Value it));
  tok_line : 1 <= Line it;
  tok_nonempty : ElementType it <> itemEOF -> 0 < len (Value it)
}.

(** [a] ends before [b] begins, and begins strictly before it. *)
Definition precedes (a b : item) : Prop :=
  Position a + len (Value a) <= Position b /\ Position a < Position b.

(** [it] is not the EOF and ends at or before offset [s]. *)
Definition behind (s : Z) (it : item) : Prop :=
  ElementType it <> itemEOF /\ Position it + len (Value it) <= s.

(** The items sent end with an EOF, the only one. *)
Definition ended (l : lexer) : Prop :=
  exists its e, items l = its ++ [e] /\ ElementType e = itemEOF /\
                Forall (fun it => ElementType it <> itemEOF) its.

(** The item [emit t] sends from [l]. *)
Definition new_item (t : itemElement) (l : lexer) : item :=
  mkItem (elements t) t (start l) (line l) (slice (input l) (start l) (pos l)).

Section Invariant.

(** The text handed to [lex]. *)
Variable inp : gostring.

(** The invariant of a run on [inp], while it is scanning. *)
Record good (l : lexer) : Prop := {
  g_input : input l = inp;
  g_start : 0 <= start l;
  g_pos : start l <= pos l;
  g_len : pos l <= len (input l);
  g_line : 1 <= line l;
  g_toks : Forall (tok_ok (input l)) (items l);
  g_sorted : StronglySorted precedes (items l);
  g_behind : Forall (behind (start l)) (items l)
}.

(** What is left of the invariant once the EOF is sent. *)
Record fin (l : lexer) : Prop := {
  f_input : input l = inp;
  f_toks : Forall (tok_ok (input l)) (items l);
  f_sorted : StronglySorted precedes (items l)
}.

(** At the top of the loop of [lexStart]. *)
Definition at_start (l : lexer) : Prop :=
  good l /\ (pos l = 1 -> start l = 0).

(** On entry to [lexSection]. *)
Definition at_section (l : lexer) : Prop :=
  good l /\ start l < pos l /\ isSectionAdornment (peek_rune l) = true.

(** What one turn of the loop of [lexStart], started in [l], may do. *)
Definition start_post (l : lexer) (f : flow) (l' : lexer) : Prop :=
  match f with
  | Return None => fin l' /\ ended l'
  | Return (Some lexSectionFn) =>
    at_section l' /\ pos l = 1 /\ isSectionAdornment (rune_at l) = true
  | Return (Some lexStartFn) => False
  | Continue =>
    at_start l' /\ pos l < pos l' /\
    ~ (pos l = 1 /\ isSectionAdornment (rune_at l) = true)
  | Break =>
    good l' /\ ~ (pos l = 1 /\ isSectionAdornment (rune_at l) = true)
  end.

(** The invariant at the head of the loop of [run], by state. *)
Definition at_state (st : option stateFn) (l : lexer) : Prop :=
  match st with
  | Some lexStartFn => at_start l
  | Some lexSectionFn => at_section l
  | None => fin l /\ ended l
  end.

End Invariant.

(** ["\n"] *)
Definition nl : gostring := [x0a].

(** ["Title\n=====\n\nParagraph text\n"] *)
Definition title_para : gostring :=
  str "Title" ++ nl ++ str "=====" ++ nl ++ nl ++ str "Paragraph text" ++ nl.

(** The integer-valued fields of [item]. *)
Definition int_fields : list (item -> Z) :=
  [Position; Line; fun it => itemElement_int (ElementType it)].

(** [f] numbers the items 1, 2, 3, ... *)
Definition numbers (f : item -> Z) (its : list item) : Prop :=
  map f its = map Z.of_nat (seq 1 (List.length its)).

(** The cursor operations of claim C5. *)
Inductive cursorOp : Type := opNext | opBackup | opPeek.

(** One operation, its result dropped. *)
Definition apply_op (o : cursorOp) : M unit :=
  match o with
  | opNext => next ;;; ret tt
  | opBackup => backup
  | opPeek => peek ;;; ret tt
  end.

(** A sequence of operations, from left to right. *)
Fixpoint apply_ops (os : list cursorOp) : M unit :=
  match os with
  | [] => ret tt
  | o :: os' => apply_op o ;;; apply_ops os'
  end.

(** The byte offsets at which a rune of [s] begins, and [len s]: offset 0,
    and each offset reached from one of them by the width of the rune
    decoded there. *)
Inductive boundary (s : gostring) : Z -> Prop :=
| boundary_0 : boundary s 0
| boundary_step (p : Z) :
    boundary s p -> p < len s ->
    boundary s (p + snd (utf8.DecodeRuneInString (from s p))).

(** [p] lies strictly inside the rune that begins at the boundary [q]. *)
Definition mid_rune (s : gostring) (p : Z) : Prop :=
  exists q, boundary s q /\ q < len s /\
            q < p < q + snd (utf8.DecodeRuneInString (from s q)).

(** Every [backup] comes directly after a [next]. *)
Fixpoint disciplined_after (after_next : bool) (os : list cursorOp) : bool :=
  match os with
  | [] => true
  | opNext :: os' => disciplined_after true os'
  | opPeek :: os' => disciplined_after false os'
  | opBackup :: os' => after_next && disciplined_after false os'
  end.

Definition disciplined (os : list cursorOp) : bool := disciplined_after false os.

(** The test of claim C3 on a line: its first two runes are one and the
    same adornment character. *)
Definition two_identical_adornments (ln : gostring) : bool :=
  let rw1 := utf8.DecodeRuneInString ln in
  let rw2 := utf8.DecodeRuneInString (from ln (snd rw1)) in
  isSectionAdornment (fst rw1) && isSectionAdornment (fst rw2) &&
  (fst rw1 =? fst rw2).

(** The first two runes of the line are adornment characters, the same or
    not. *)
Definition two_adornments (ln : gostring) : bool :=
  let rw1 := utf8.DecodeRuneInString ln in
  let rw2 := utf8.DecodeRuneInString (from ln (snd rw1)) in
  isSectionAdornment (fst rw1) && isSectionAdornment (fst rw2).

(** ** Definitions used by the further properties *)

(** The lexer after a [next] inside the input. *)
Definition moved (l : lexer) : lexer :=
  set_pos (set_width l (width_at l)) (pos l + width_at l).

(** The lexer after [emit t]. *)
Definition emitted (t : itemElement) (l : lexer) : lexer :=
  set_start (send l (new_item t l)) (pos l).

(** The lexer after [ignore]. *)
Definition ignored (l : lexer) : lexer :=
  set_start (set_pos l (pos l + 1)) (pos l + 1).

(** The byte is a carriage return or a line feed. *)
Definition eol_byte (b : byte) : bool := isEndOfLine (byteval b).

(** The printable ASCII characters that are neither letters nor digits
    nor the space. *)
Definition ascii_punctuation (r : Z) : bool :=
  ((33 <=? r) && (r <=? 47)) || ((58 <=? r) && (r <=? 64)) ||
  ((91 <=? r) && (r <=? 96)) || ((123 <=? r) && (r <=? 126)).

(** The test the first two turns of the loop of [lexStart] make on a fresh
    lexer: the first rune is one byte wide and no end of line, and the
    rune at byte 1 is an adornment character. *)
Definition enters_section (inp : gostring) : bool :=
  let rw0 := utf8.DecodeRuneInString inp in
  negb (isEndOfLine (fst rw0)) && (snd rw0 =? 1) &&
  isSectionAdornment (fst (utf8.DecodeRuneInString (from inp 1))).

(** The lexer [lexStart] hands to [lexSection]: at byte 1, nothing sent. *)
Definition section_entry (nm : string) (inp : gostring) : lexer :=
  mkLexer nm inp 1 0 1 0 [] 1.

(** The index of the first carriage-return or line-feed byte. *)
Fixpoint first_eol (s : gostring) : option Z :=
  match s with
  | [] => None
  | b :: t => if eol_byte b then Some 0 else option_map Z.succ (first_eol t)
  end.

(** The SectionAdornment [lexSection] sends when the first end-of-line
    byte of the input is at index [q]. *)
Definition first_line_item (inp : gostring) (q : Z) : item :=
  mkItem (elements itemSectionAdornment) itemSectionAdornment 0 1 (slice inp 0 q).

(** The text of [it] covers the byte at index [p] of the input. *)
Definition covers (it : item) (p : Z) : Prop :=
  Position it <= p < Position it + len (Value it).

(** Every byte of [inp] before [bound] is an end-of-line byte or lies in
    the text of one of the items. *)
Definition accounted (inp : gostring) (its : list item) (bound : Z) : Prop :=
  forall p b t, 0 <= p < bound -> from inp p = b :: t ->
                eol_byte b = true \/ Exists (fun it => covers it p) its.

(** No item but the first is a SectionAdornment. *)
Definition adornment_only_first (its : list item) : Prop :=
  match its with
  | [] => True
  | _ :: rest => Forall (fun it => ElementType it <> itemSectionAdornment) rest
  end.

(** The number of carriage-return and line-feed bytes. *)
Definition count_eol (s : gostring) : Z :=
  Z.of_nat (List.length (filter eol_byte s)).

(** The text of [it] ends where the input ends or right before an
    end-of-line byte. *)
Definition ends_line (inp : gostring) (it : item) : Prop :=
  Position it + len (Value it) = len inp \/
  exists b t, from inp (Position it + len (Value it)) = b :: t /\
              eol_byte b = true.

(** ** Facts about Go strings and the decoder *)

Lemma len_nonneg (s : gostring) : 0 <= len s.
Proof. unfold len. lia. Qed.

Lemma len_from (s : gostring) (p : Z) :
  0 <= p <= len s -> len (from s p) = len s - p.
Proof.
  unfold len, from. intros H. rewrite length_skipn. lia.
Qed.

Lemma len_slice (s : gostring) (lo hi : Z) :
  0 <= lo <= hi -> hi <= len s -> len (slice s lo hi) = hi - lo.
Proof.
  unfold len, slice. intros H1 H2.
  rewrite length_firstn, length_skipn. lia.
Qed.

Lemma from_nil_iff (s : gostring) (p : Z) :
  0 <= p <= len s -> (from s p = [] <-> p = len s).
Proof.
  intros H. pose proof (len_from s p H) as L. split; intros E.
  - rewrite E in L. unfold len in L at 1. simpl in L. lia.
  - destruct (from s p) eqn:F; [reflexivity|].
    unfold len in L at 1. simpl in L. lia.
Qed.

Lemma byteval_range (b : byte) : 0 <= byteval b < 256.
Proof.
  unfold byteval. pose proof (Byte.to_N_bounded b). lia.
Qed.

Module utf8_facts.
Import utf8.

Lemma lead_size (s0 sz lo hi : Z) :
  lead s0 = Some (sz, lo, hi) -> 2 <= sz <= 4.
Proof.
  unfold lead.
  repeat match goal with
         | |- context [if ?c then _ else _] => destruct c
         end; intros E; inversion E; lia.
Qed.

(** The decoder consumes at least one byte of a non-empty string and
    never more bytes than there are. *)
Lemma width_bounds (s : gostring) :
  s <> [] ->
  1 <= snd (DecodeRuneInString s) <= len s.
Proof.
  intros Hs. destruct s as [|b0 t]; [congruence|].
  assert (L1 : 1 <= len (b0 :: t)) by (unfold len; simpl; lia).
  unfold DecodeRuneInString.
  destruct (byteval b0 <? 128); [simpl; lia|].
  destruct (lead (byteval b0)) as [[[sz lo] hi]|] eqn:Ld; [|simpl; lia].
  apply lead_size in Ld.
  destruct (len (b0 :: t) <? sz) eqn:Hn; [simpl; lia|].
  apply Z.ltb_ge in Hn.
  destruct t as [|b1 t1]; [simpl; lia|].
  destruct ((byteval b1 <? lo) || (hi <? byteval b1)); [simpl; lia|].
  destruct (sz <=? 2) eqn:S2; [simpl; unfold len; simpl; lia|].
  destruct t1 as [|b2 t2]; [simpl; lia|].
  destruct (negb (cont (byteval b2))); [simpl; lia|].
  destruct (sz <=? 3) eqn:S3; [simpl; unfold len; simpl; lia|].
  destruct t2 as [|b3 t3]; [simpl; lia|].
  destruct (negb (cont (byteval b3))); [simpl; lia|].
  simpl; unfold len; simpl; lia.
Qed.

Lemma lor_lower (a b : Z) : 0 <= a -> 0 <= b -> a <= Z.lor a b.
Proof.
intros Ha Hb. apply (Z.ldiff_le a (Z.lor a b)).
- apply Z.lor_nonneg. auto.
- apply Z.bits_inj'. intros n Hn.
  rewrite Z.ldiff_spec, Z.lor_spec, Z.bits_0.
  destruct (Z.testbit a n), (Z.testbit b n); reflexivity.
Qed.

Lemma lor_lower_r (a b : Z) : 0 <= a -> 0 <= b -> b <= Z.lor a b.
Proof. intros Ha Hb. rewrite Z.lor_comm. apply lor_lower; assumption. Qed.

(** [x & (2^n - 1)], shifted left by [k]. *)
Lemma field_value (x n k : Z) :
0 <= n -> 0 <= k ->
Z.shiftl (Z.land x (Z.ones n)) k = (x mod 2 ^ n) * 2 ^ k.
Proof.
intros Hn Hk. rewrite Z.land_ones by exact Hn.
apply Z.shiftl_mul_pow2. exact Hk.
Qed.

Lemma lead_cases (s0 sz lo hi : Z) :
lead s0 = Some (sz, lo, hi) ->
128 <= lo /\ hi <= 191 /\
((sz = 2 /\ 194 <= s0 <= 223) \/
 (sz = 3 /\ s0 = 224 /\ lo = 160) \/
 (sz = 3 /\ 225 <= s0 <= 239) \/
 (sz = 4 /\ s0 = 240 /\ lo = 144) \/
 (sz = 4 /\ 241 <= s0 <= 244)).
Proof.
unfold lead, locb, hicb.
repeat match goal with
       | |- context [if ?c then _ else _] => destruct c eqn:?
       end; intros E; inversion E; subst; lia.
Qed.

Lemma two_byte_rune (s0 s1 : Z) :
194 <= s0 <= 223 -> 0 <= s1 ->
128 <= Z.lor (Z.shiftl (Z.land s0 31) 6) (Z.land s1 63).
Proof.
intros H0 H1.
change 31 with (Z.ones 5). change 63 with (Z.ones 6).
rewrite field_value by lia. rewrite Z.land_ones by lia.
assert (s0 mod 2 ^ 5 = s0 - 192) by (symmetry; apply Z.mod_unique with 6; lia).
pose proof (Z.mod_pos_bound s1 (2 ^ 6) ltac:(lia)).
pose proof (lor_lower (s0 mod 2 ^ 5 * 2 ^ 6) (s1 mod 2 ^ 6) ltac:(lia) ltac:(lia)).
lia.
Qed.

Lemma three_byte_rune (s0 s1 s2 : Z) :
(s0 = 224 /\ 160 <= s1 <= 191) \/ 225 <= s0 <= 239 ->
0 <= s1 -> 0 <= s2 ->
128 <= Z.lor (Z.lor (Z.shiftl (Z.land s0 15) 12) (Z.shiftl (Z.land s1 63) 6))
             (Z.land s2 63).
Proof.
intros H0 H1 H2.
change 15 with (Z.ones 4). change 63 with (Z.ones 6).
rewrite !field_value by lia. rewrite Z.land_ones by lia.
pose proof (Z.mod_pos_bound s0 (2 ^ 4) ltac:(lia)).
pose proof (Z.mod_pos_bound s1 (2 ^ 6) ltac:(lia)).
pose proof (Z.mod_pos_bound s2 (2 ^ 6) ltac:(lia)).
set (A := s0 mod 2 ^ 4 * 2 ^ 12) in *.
set (B := s1 mod 2 ^ 6 * 2 ^ 6) in *.
assert (0 <= A) by (unfold A; lia). assert (0 <= B) by (unfold B; lia).
pose proof (lor_lower (Z.lor A B) (s2 mod 2 ^ 6)
                      ltac:(apply Z.lor_nonneg; lia) ltac:(lia)).
destruct H0 as [[E R]|R].
- assert (s1 mod 2 ^ 6 = s1 - 128) by (symmetry; apply Z.mod_unique with 2; lia).
  pose proof (lor_lower_r A B ltac:(lia) ltac:(lia)). unfold B in *. lia.
- assert (s0 mod 2 ^ 4 = s0 - 224) by (symmetry; apply Z.mod_unique with 14; lia).
  pose proof (lor_lower A B ltac:(lia) ltac:(lia)). unfold A in *. lia.
Qed.

Lemma four_byte_rune (s0 s1 s2 s3 : Z) :
(s0 = 240 /\ 144 <= s1 <= 191) \/ 241 <= s0 <= 244 ->
0 <= s1 -> 0 <= s2 -> 0 <= s3 ->
128 <= Z.lor (Z.lor (Z.lor (Z.shiftl (Z.land s0 7) 18)
                           (Z.shiftl (Z.land s1 63) 12))
                    (Z.shiftl (Z.land s2 63) 6))
             (Z.land s3 63).
Proof.
intros H0 H1 H2 H3.
change 7 with (Z.ones 3). change 63 with (Z.ones 6).
rewrite !field_value by lia. rewrite Z.land_ones by lia.
pose proof (Z.mod_pos_bound s0 (2 ^ 3) ltac:(lia)).
pose proof (Z.mod_pos_bound s1 (2 ^ 6) ltac:(lia)).
pose proof (Z.mod_pos_bound s2 (2 ^ 6) ltac:(lia)).
pose proof (Z.mod_pos_bound s3 (2 ^ 6) ltac:(lia)).
set (A := s0 mod 2 ^ 3 * 2 ^ 18) in *.
set (B := s1 mod 2 ^ 6 * 2 ^ 12) in *.
set (C := s2 mod 2 ^ 6 * 2 ^ 6) in *.
assert (0 <= A) by (unfold A; lia). assert (0 <= B) by (unfold B; lia).
assert (0 <= C) by (unfold C; lia).
assert (0 <= Z.lor A B) by (apply Z.lor_nonneg; lia).
pose proof (lor_lower (Z.lor (Z.lor A B) C) (s3 mod 2 ^ 6)
                      ltac:(apply Z.lor_nonneg; lia) ltac:(lia)).
pose proof (lor_lower (Z.lor A B) C ltac:(lia) ltac:(lia)).
destruct H0 as [[E R]|R].
- assert (s1 mod 2 ^ 6 = s1 - 128) by (symmetry; apply Z.mod_unique with 2; lia).
  pose proof (lor_lower_r A B ltac:(lia) ltac:(lia)). unfold B in *. lia.
- assert (s0 mod 2 ^ 3 = s0 - 240) by (symmetry; apply Z.mod_unique with 30; lia).
  pose proof (lor_lower A B ltac:(lia) ltac:(lia)). unfold A in *. lia.
Qed.

(** The decoder returns either a single ASCII byte, or a rune from 128 on
  (among them [RuneError]). *)
Lemma ascii_or_above (s : gostring) :
(exists b t, s = b :: t /\ byteval b < 128 /\
             DecodeRuneInString s = (byteval b, 1)) \/
128 <= fst (DecodeRuneInString s).
Proof.
destruct s as [|b0 t]; [right; simpl; unfold RuneError; lia|].
unfold DecodeRuneInString.
pose proof (byteval_range b0) as R0.
destruct (byteval b0 <? 128) eqn:A.
{ left. exists b0, t. apply Z.ltb_lt in A. auto. }
right.
destruct (lead (byteval b0)) as [[[sz lo] hi]|] eqn:Ld;
  [|simpl; unfold RuneError; lia].
apply lead_cases in Ld. destruct Ld as (Lo & Hi & Cases).
destruct (len (b0 :: t) <? sz); [simpl; unfold RuneError; lia|].
destruct t as [|b1 t1]; [simpl; unfold RuneError; lia|].
pose proof (byteval_range b1) as R1.
destruct ((byteval b1 <? lo) || (hi <? byteval b1)) eqn:C1;
  [simpl; unfold RuneError; lia|].
apply orb_false_iff in C1. destruct C1 as [C1 C1'].
apply Z.ltb_ge in C1, C1'.
destruct (sz <=? 2) eqn:S2.
{ apply Z.leb_le in S2. simpl. apply two_byte_rune; lia. }
apply Z.leb_gt in S2.
destruct t1 as [|b2 t2]; [simpl; unfold RuneError; lia|].
pose proof (byteval_range b2) as R2.
destruct (negb (cont (byteval b2))); [simpl; unfold RuneError; lia|].
destruct (sz <=? 3) eqn:S3.
{ apply Z.leb_le in S3. simpl. apply three_byte_rune; lia. }
apply Z.leb_gt in S3.
destruct t2 as [|b3 t3]; [simpl; unfold RuneError; lia|].
pose proof (byteval_range b3) as R3.
destruct (negb (cont (byteval b3))); [simpl; unfold RuneError; lia|].
simpl. apply four_byte_rune; lia.
Qed.

Lemma decode_nil : DecodeRuneInString [] = (RuneError, 0).
Proof. reflexivity. Qed.

End utf8_facts.

Lemma isEndOfLine_not_adornment (r : Z) :
  isEndOfLine r = true -> isSectionAdornment r = false.
Proof.
  unfold isEndOfLine. intros H. apply orb_true_iff in H.
  destruct H as [H|H]; apply Z.eqb_eq in H; subst r; reflexivity.
Qed.

Lemma EOF_not_adornment : isSectionAdornment EOF = false.
Proof. reflexivity. Qed.

Lemma RuneError_not_adornment : isSectionAdornment utf8.RuneError = false.
Proof. reflexivity. Qed.

(** ** The cursor operations as equations *)

Lemma width_at_bounds (l : lexer) :
  0 <= pos l < len (input l) ->
  1 <= width_at l /\ pos l + width_at l <= len (input l).
Proof.
  intros H. unfold width_at.
  assert (F : from (input l) (pos l) <> []).
  { intros E. apply from_nil_iff in E; lia. }
  pose proof (utf8_facts.width_bounds _ F) as W.
  rewrite len_from in W by lia. lia.
Qed.

Lemma rune_at_end (l : lexer) :
  pos l = len (input l) -> rune_at l = utf8.RuneError.
Proof.
  intros H. unfold rune_at.
  assert (E : from (input l) (pos l) = []).
  { apply from_nil_iff; [pose proof (len_nonneg (input l)); lia | exact H]. }
  rewrite E. reflexivity.
Qed.

Lemma next_eof (l : lexer) :
  len (input l) <= pos l -> next l = Ret EOF (set_width l 0).
Proof.
  intros H. unfold next. apply Z.leb_le in H. rewrite H. reflexivity.
Qed.

Lemma next_in (l : lexer) :
  0 <= pos l < len (input l) ->
  next l = Ret (rune_at l)
               (set_pos (set_width l (width_at l)) (pos l + width_at l)).
Proof.
  intros [H0 H1]. unfold next.
  apply Z.leb_gt in H1. rewrite H1.
  apply Z.ltb_ge in H0. rewrite H0. reflexivity.
Qed.

Lemma next_neg (l : lexer) : pos l < 0 -> next l = Panic l.
Proof.
  intros H. unfold next. pose proof (len_nonneg (input l)) as L.
  destruct (len (input l) <=? pos l) eqn:E; [apply Z.leb_le in E; lia|].
  apply Z.ltb_lt in H. rewrite H. reflexivity.
Qed.

Lemma peek_eq (l : lexer) :
  0 <= pos l -> peek l = Ret (peek_rune l) (set_width l (peek_width l)).
Proof.
  intros H. unfold peek, bind, peek_rune, peek_width.
  destruct (len (input l) <=? pos l) eqn:E.
  - apply Z.leb_le in E. rewrite next_eof by exact E.
    unfold backup, ret, set_pos, set_width; simpl.
    rewrite Z.sub_0_r. destruct l; reflexivity.
  - apply Z.leb_gt in E. rewrite next_in by lia.
    unfold backup, ret, set_pos, set_width; simpl.
    rewrite Z.add_simpl_r. reflexivity.
Qed.

Lemma peek_neg (l : lexer) : pos l < 0 -> peek l = Panic l.
Proof.
  intros H. unfold peek, bind. rewrite next_neg by exact H. reflexivity.
Qed.

Lemma current_eq (l : lexer) :
  0 <= pos l <= len (input l) -> current l = Ret (rune_at l) l.
Proof.
  intros [H0 H1]. unfold current.
  apply Z.leb_le in H0, H1. rewrite H0, H1. reflexivity.
Qed.

Lemma peek_rune_current (l : lexer) :
  pos l < len (input l) -> peek_rune l = rune_at l.
Proof.
  intros H. unfold peek_rune. apply Z.leb_gt in H. rewrite H. reflexivity.
Qed.

Lemma peek_adornment_inside (l : lexer) :
  isSectionAdornment (peek_rune l) = true ->
  pos l < len (input l) /\ isSectionAdornment (rune_at l) = true.
Proof.
  unfold peek_rune. destruct (len (input l) <=? pos l) eqn:E.
  - rewrite EOF_not_adornment. discriminate.
  - apply Z.leb_gt in E. auto.
Qed.

Lemma rune_adornment_inside (l : lexer) :
  0 <= pos l <= len (input l) ->
  isSectionAdornment (rune_at l) = true -> pos l < len (input l).
Proof.
  intros H A. destruct (Z.eq_dec (pos l) (len (input l))) as [E|E]; [|lia].
  rewrite rune_at_end in A by exact E.
  rewrite RuneError_not_adornment in A. discriminate.
Qed.

Lemma rune_eol_inside (l : lexer) :
  0 <= pos l <= len (input l) ->
  isEndOfLine (rune_at l) = true -> pos l < len (input l).
Proof.
  intros H A. destruct (Z.eq_dec (pos l) (len (input l))) as [E|E]; [|lia].
  rewrite rune_at_end in A by exact E. discriminate.
Qed.

(** ** The invariant of a run *)

Section Run.

(** The text handed to [lex]. *)
Variable inp : gostring.

Lemma good_fin (l : lexer) : good inp l -> fin inp l.
Proof. intros G. constructor; apply G. Qed.

Lemma StronglySorted_snoc {A} (R : A -> A -> Prop) (xs : list A) (x : A) :
  StronglySorted R xs -> Forall (fun y => R y x) xs ->
  StronglySorted R (xs ++ [x]).
Proof.
  induction 1 as [|y ys S IH F]; intros H; simpl.
  - constructor; constructor.
  - inversion H; subst. constructor.
    + apply IH. assumption.
    + apply Forall_app. split; [assumption|]. constructor; [assumption|constructor].
Qed.

Lemma emit_eq (t : itemElement) (l : lexer) :
  good inp l -> emit t l = Ret tt (set_start (send l (new_item t l)) (pos l)).
Proof.
  intros G. unfold emit.
  destruct G as [_ G1 G2 G3 _ _ _ _].
  apply Z.leb_le in G1, G2, G3. rewrite G1, G2, G3. reflexivity.
Qed.

Lemma debug_slice_eq (l : lexer) : good inp l -> debug_slice l = Ret tt l.
Proof.
  intros G. unfold debug_slice.
  destruct G as [_ G1 G2 G3 _ _ _ _].
  apply Z.leb_le in G1, G2, G3. rewrite G1, G2, G3. reflexivity.
Qed.

Lemma when_debug_slice_eq (b : bool) (l : lexer) :
  good inp l -> when b debug_slice l = Ret tt l.
Proof.
  intros G. destruct b; [apply debug_slice_eq; exact G|reflexivity].
Qed.

Lemma new_item_ok (t : itemElement) (l : lexer) :
  good inp l -> emitted_kind t = true -> (t <> itemEOF -> start l < pos l) ->
  tok_ok (input l) (new_item t l).
Proof.
  intros G K N. destruct G as [_ G1 G2 G3 G4 _ _ _].
  assert (L : len (slice (input l) (start l) (pos l)) = pos l - start l)
    by (apply len_slice; lia).
  constructor; simpl; try rewrite L; try assumption; try reflexivity; try lia.
  - f_equal. lia.
  - intros Ht. specialize (N Ht). lia.
Qed.

Lemma new_item_after (t : itemElement) (l : lexer) :
  good inp l -> (t <> itemEOF -> start l < pos l) ->
  Forall (fun y => precedes y (new_item t l)) (items l).
Proof.
  intros G N. pose proof (g_behind inp l G) as B. pose proof (g_toks inp l G) as T.
  rewrite Forall_forall in *. intros y Hy.
  destruct (B y Hy) as [B1 B2]. pose proof (tok_nonempty _ _ (T y Hy) B1).
  unfold precedes; simpl. lia.
Qed.

Lemma good_emit (t : itemElement) (l : lexer) :
  good inp l -> emitted_kind t = true -> t <> itemEOF -> start l < pos l ->
  good inp (set_start (send l (new_item t l)) (pos l)).
Proof.
  intros G K N S.
  pose proof (new_item_ok t l G K (fun _ => S)) as OK.
  pose proof (new_item_after t l G (fun _ => S)) as AF.
  assert (L : len (slice (input l) (start l) (pos l)) = pos l - start l)
    by (apply len_slice; destruct G; lia).
  destruct G as [G0 G1 G2 G3 G4 G5 G6 G7].
  constructor; simpl; try lia; try exact G0.
  - apply Forall_app. split; [assumption|]. constructor; [assumption|constructor].
  - apply StronglySorted_snoc; assumption.
  - apply Forall_app. split.
    + eapply Forall_impl; [|exact G7]. unfold behind. intros a [A1 A2]. split; [assumption|lia].
    + constructor; [|constructor]. unfold behind; simpl. rewrite L. split; [assumption|lia].
Qed.

Lemma fin_emit_eof (l : lexer) :
  good inp l -> fin inp (set_start (send l (new_item itemEOF l)) (pos l)).
Proof.
  intros G.
  assert (OK : tok_ok (input l) (new_item itemEOF l)).
  { apply new_item_ok; [assumption|reflexivity|congruence]. }
  assert (AF : Forall (fun y => precedes y (new_item itemEOF l)) (items l)).
  { apply new_item_after; [assumption|congruence]. }
  destruct G as [G0 G1 G2 G3 G4 G5 G6 G7].
  constructor; simpl; try exact G0.
  - apply Forall_app. split; [assumption|]. constructor; [assumption|constructor].
  - apply StronglySorted_snoc; assumption.
Qed.

Lemma ended_emit_eof (l : lexer) :
  good inp l -> ended (set_start (send l (new_item itemEOF l)) (pos l)).
Proof.
  intros G. exists (items l), (new_item itemEOF l).
  split; [reflexivity|]. split; [reflexivity|].
  eapply Forall_impl; [|exact (g_behind inp l G)]. unfold behind. intros a [A _]. exact A.
Qed.

Lemma good_set_width (l : lexer) (w : Z) : good inp l -> good inp (set_width l w).
Proof. intros [G0 G1 G2 G3 G4 G5 G6 G7]. constructor; simpl; assumption. Qed.

Lemma good_set_line (l : lexer) : good inp l -> good inp (set_line l (line l + 1)).
Proof. intros [G0 G1 G2 G3 G4 G5 G6 G7]. constructor; simpl; try assumption; lia. Qed.

Lemma good_advance (l : lexer) (p : Z) :
  good inp l -> pos l <= p <= len (input l) -> good inp (set_pos l p).
Proof. intros [G0 G1 G2 G3 G4 G5 G6 G7] H. constructor; simpl; try assumption; lia. Qed.

Lemma good_ignore (l : lexer) :
  good inp l -> pos l < len (input l) ->
  good inp (set_start (set_pos l (pos l + 1)) (pos l + 1)).
Proof.
  intros [G0 G1 G2 G3 G4 G5 G6 G7] H. constructor; simpl; try assumption; try lia.
  eapply Forall_impl; [|exact G7]. unfold behind. intros a [A1 A2]. split; [assumption|lia].
Qed.

Lemma good_lex (nm : string) : good inp (lex nm inp).
Proof.
  constructor; simpl; try lia; try constructor.
  apply len_nonneg.
Qed.

(** ** The state functions preserve the invariant *)

Lemma advance_spec (l : lexer) :
  good inp l ->
  exists f l', advance l = Ret f l' /\
    ((f = Break /\ good inp l') \/ (f = Continue /\ at_start inp l' /\ pos l < pos l')).
Proof.
  intros G. unfold advance, bind, ret.
  pose proof (g_start inp l G). pose proof (g_pos inp l G). pose proof (g_len inp l G).
  destruct (Z.eq_dec (pos l) (len (input l))) as [E|E].
  - rewrite next_eof by lia. simpl.
    eexists _, _. split; [reflexivity|]. left. split; [reflexivity|].
    apply good_set_width; assumption.
  - rewrite next_in by lia.
    destruct (width_at_bounds l) as [W1 W2]; [lia|].
    assert (G' : good inp (set_pos (set_width l (width_at l)) (pos l + width_at l))).
    { apply good_advance; [apply good_set_width; assumption|simpl; lia]. }
    destruct (rune_at l =? EOF); eexists _, _; (split; [reflexivity|]).
    + left. auto.
    + right. split; [reflexivity|]. split; [|simpl; lia].
      split; [assumption|]. simpl. lia.
Qed.

Lemma rune_at_set_width (l : lexer) (w : Z) : rune_at (set_width l w) = rune_at l.
Proof. reflexivity. Qed.

Lemma peek_rune_set_line (l : lexer) (n : Z) : peek_rune (set_line l n) = peek_rune l.
Proof. reflexivity. Qed.

Lemma lexStart_body_spec (l : lexer) :
  at_start inp l ->
  exists f l', lexStart_body l = Ret f l' /\ start_post inp l f l'.
Proof.
  intros [G S1].
  pose proof (g_start inp l G) as B1. pose proof (g_pos inp l G) as B2.
  pose proof (g_len inp l G) as B3.
  unfold lexStart_body, bind, get, when, ret.
  destruct (len (input l) =? 0) eqn:E0.
  { rewrite emit_eq by assumption.
    eexists _, _. split; [reflexivity|]. simpl.
    split; [apply fin_emit_eof|apply ended_emit_eof]; assumption. }
  rewrite debug_slice_eq by assumption.
  rewrite current_eq by lia.
  destruct (isSectionAdornment (rune_at l)) eqn:A.
  - (* the rune under the cursor is an adornment character *)
    pose proof (rune_adornment_inside l ltac:(lia) A) as In.
    rewrite peek_eq by lia. rewrite peek_rune_current by lia. rewrite A.
    cbn [pos set_width].
    destruct (pos l =? 1) eqn:P1.
    + apply Z.eqb_eq in P1.
      eexists _, _. split; [reflexivity|]. simpl.
      split; [|auto]. split; [apply good_set_width; assumption|].
      split; [simpl; lia|].
      change (peek_rune (set_width l (peek_width l))) with (peek_rune l).
      rewrite peek_rune_current by lia. assumption.
    + apply Z.eqb_neq in P1.
      assert (EL : isEndOfLine (rune_at l) = false).
      { destruct (isEndOfLine (rune_at l)) eqn:EL; [|reflexivity].
        apply isEndOfLine_not_adornment in EL. congruence. }
      rewrite EL.
      destruct (advance_spec (set_width l (peek_width l))) as (f & l' & Ha & Hp).
      { apply good_set_width; assumption. }
      rewrite Ha. eexists _, _. split; [reflexivity|].
      destruct Hp as [[-> G']|[-> [G' Lt]]]; simpl; [split; [assumption|lia]|].
      simpl in Lt. split; [assumption|]. split; lia.
  - destruct (isEndOfLine (rune_at l)) eqn:EL.
    + (* a newline *)
      pose proof (rune_eol_inside l ltac:(lia) EL) as In.
      unfold bump_line.
      rewrite peek_eq by (simpl; lia). rewrite peek_rune_set_line.
      rewrite peek_rune_current by lia. rewrite A.
      cbn [pos start set_width set_line].
      set (l1 := set_width (set_line l (line l + 1)) (peek_width (set_line l (line l + 1)))).
      assert (G1 : good inp l1).
      { apply good_set_width, good_set_line; assumption. }
      destruct (start l <? pos l) eqn:SP.
      * apply Z.ltb_lt in SP.
        rewrite emit_eq by assumption.
        pose proof (good_emit itemParagraph l1 G1 eq_refl ltac:(discriminate) SP) as G2.
        set (l2 := set_start (send l1 (new_item itemParagraph l1)) (pos l1)) in *.
        unfold ignore at 1.
        pose proof (good_ignore l2 G2 In) as G3.
        destruct (advance_spec _ G3) as (f & l' & Ha & Hp).
        rewrite Ha. eexists _, _. split; [reflexivity|].
        destruct Hp as [[-> G']|[-> [G' Lt]]]; simpl.
        { split; [assumption|]. intros [_ X]. congruence. }
        simpl in Lt. split; [assumption|]. split; [lia|]. intros [_ X]. congruence.
      * unfold ignore at 1.
        pose proof (good_ignore l1 G1 In) as G3.
        destruct (advance_spec _ G3) as (f & l' & Ha & Hp).
        rewrite Ha. eexists _, _. split; [reflexivity|].
        destruct Hp as [[-> G']|[-> [G' Lt]]]; simpl.
        { split; [assumption|]. intros [_ X]. congruence. }
        simpl in Lt. split; [assumption|]. split; [lia|]. intros [_ X]. congruence.
    + destruct (advance_spec l G) as (f & l' & Ha & Hp).
      rewrite Ha. eexists _, _. split; [reflexivity|].
      destruct Hp as [[-> G']|[-> [G' Lt]]]; simpl.
      { split; [assumption|]. intros [_ X]. congruence. }
      split; [assumption|]. split; [lia|]. intros [_ X]. congruence.
Qed.

Lemma lexStart_spec (fuel : nat) (l : lexer) :
  at_start inp l ->
  match lexStart fuel l with
  | Ret (Some lexSectionFn) l' => at_section inp l'
  | Ret (Some lexStartFn) _ => False
  | Ret None l' => fin inp l' /\ ended l'
  | Panic _ => False
  | Spin l' => good inp l'
  end.
Proof.
  unfold lexStart. revert l.
  induction fuel as [|fuel IH]; intros l H; simpl.
  - apply H.
  - destruct (lexStart_body_spec l H) as (f & l' & E & P).
    unfold bind at 1. rewrite E.
    destruct f as [[[|]|]| |]; simpl in P.
    + contradiction.
    + apply P.
    + exact P.
    + apply IH. apply P.
    + destruct P as [G _]. unfold bind, get, when, ret.
      destruct (start l' <? pos l') eqn:SP.
      * apply Z.ltb_lt in SP. rewrite emit_eq by assumption.
        pose proof (good_emit itemParagraph l' G eq_refl ltac:(discriminate) SP) as G2.
        rewrite emit_eq by assumption.
        split; [apply fin_emit_eof|apply ended_emit_eof]; assumption.
      * rewrite emit_eq by assumption.
        split; [apply fin_emit_eof|apply ended_emit_eof]; assumption.
Qed.

(** The loop of [lexStart] ends: every turn that goes on moves the cursor
    forward. *)
Lemma lexStart_terminates (fuel : nat) :
  forall l, at_start inp l ->
  (Z.to_nat (len inp - pos l) < fuel)%nat ->
  exists st l', lexStart fuel l = Ret st l'.
Proof.
  unfold lexStart.
  induction fuel as [|fuel IH]; intros l H Lt; [lia|].
  destruct (lexStart_body_spec l H) as (f & l' & E & P).
  cbn [lexStart_loop]. unfold bind at 1. rewrite E.
  destruct f as [st| |]; simpl in P.
  - eexists _, _. reflexivity.
  - destruct P as (H' & Lp & _). apply IH; [exact H'|].
    pose proof (g_len inp l' (proj1 H')) as B.
    rewrite (g_input inp l' (proj1 H')) in B. lia.
  - destruct P as [G _]. unfold bind, get, when, ret.
    destruct (start l' <? pos l') eqn:SP.
    + apply Z.ltb_lt in SP. rewrite emit_eq by assumption.
      pose proof (good_emit itemParagraph l' G eq_refl ltac:(discriminate) SP) as G2.
      rewrite emit_eq by assumption. eexists _, _. reflexivity.
    + rewrite emit_eq by assumption. eexists _, _. reflexivity.
Qed.

(** What one turn of the loop of [lexSection] may do. *)
Lemma lexSection_body_spec (l : lexer) :
  good inp l -> start l < pos l ->
  exists f l', lexSection_body l = Ret f l' /\
    good inp l' /\
    match f with
    | Continue => start l' < pos l'
    | Break => 2 <= pos l'
    | Return _ => False
    end.
Proof.
  intros G S.
  pose proof (g_start inp l G) as B1. pose proof (g_len inp l G) as B3.
  unfold lexSection_body, bind, ret.
  destruct (Z.eq_dec (pos l) (len (input l))) as [E|E].
  - rewrite next_eof by lia. rewrite EOF_not_adornment.
    change (isEndOfLine EOF) with false. cbv iota.
    eexists _, _. split; [reflexivity|].
    split; [apply good_set_width; assumption|exact S].
  - rewrite next_in by lia.
    destruct (width_at_bounds l) as [W1 W2]; [lia|].
    set (l1 := set_pos (set_width l (width_at l)) (pos l + width_at l)).
    assert (G1 : good inp l1).
    { apply good_advance; [apply good_set_width; assumption|simpl; lia]. }
    destruct (isSectionAdornment (rune_at l)).
    { unfold get. rewrite when_debug_slice_eq by assumption.
      eexists _, _. split; [reflexivity|]. split; [assumption|]. simpl. lia. }
    destruct (isEndOfLine (rune_at l)).
    2:{ eexists _, _. split; [reflexivity|]. split; [assumption|]. simpl. lia. }
    unfold backup at 1.
    set (l2 := set_pos l1 (pos l1 - width l1)).
    assert (P2 : pos l2 = pos l) by (simpl; lia).
    assert (G2 : good inp l2).
    { destruct G as [G0' G1' G2' G3' G4' G5' G6' G7'].
      constructor; simpl; try assumption; lia. }
    rewrite emit_eq by assumption.
    assert (S2 : start l2 < pos l2) by (rewrite P2; exact S).
    pose proof (good_emit itemSectionAdornment l2 G2 eq_refl ltac:(discriminate) S2) as G3.
    set (l3 := set_start (send l2 (new_item itemSectionAdornment l2)) (pos l2)) in *.
    unfold bump_line at 1.
    pose proof (good_set_line l3 G3) as G4.
    unfold ignore at 1.
    eexists _, _. split; [reflexivity|]. split.
    + apply good_ignore; [assumption|]. simpl. lia.
    + simpl. lia.
Qed.

Lemma lexSection_loop_spec (fuel : nat) (l : lexer) :
  good inp l -> start l < pos l ->
  match lexSection_loop fuel l with
  | Ret _ l' => good inp l' /\ 2 <= pos l'
  | Panic _ => False
  | Spin l' => good inp l'
  end.
Proof.
  revert l. induction fuel as [|fuel IH]; intros l G S; simpl.
  - exact G.
  - destruct (lexSection_body_spec l G S) as (f & l' & E & G' & P).
    unfold bind. rewrite E.
    destruct f; [contradiction| |].
    + apply IH; assumption.
    + simpl. auto.
Qed.

Lemma lexSection_spec (fuel : nat) (l : lexer) :
  at_section inp l ->
  match lexSection fuel l with
  | Ret (Some lexStartFn) l' => at_start inp l'
  | Ret _ _ => False
  | Panic _ => False
  | Spin l' => good inp l'
  end.
Proof.
  intros (G & S & A).
  pose proof (g_start inp l G) as B1.
  unfold lexSection, bind, get. rewrite when_debug_slice_eq by assumption.
  unfold when, ret.
  rewrite peek_eq by lia.
  assert (EL : isEndOfLine (peek_rune l) = false).
  { destruct (isEndOfLine (peek_rune l)) eqn:EL; [|reflexivity].
    apply isEndOfLine_not_adornment in EL. congruence. }
  rewrite EL.
  pose proof (lexSection_loop_spec fuel (set_width l (peek_width l))
                (good_set_width _ _ G) S) as L.
  destruct (lexSection_loop fuel (set_width l (peek_width l))) as [[] l'|l'|l'].
  - destruct L as [G' P]. split; [assumption|lia].
  - exact L.
  - exact L.
Qed.

Lemma run_from_spec (fuel : nat) (st : option stateFn) (l : lexer) :
  at_state inp st l ->
  match run_from fuel st l with
  | Ret _ l' => fin inp l' /\ ended l'
  | Panic _ => False
  | Spin l' => fin inp l'
  end.
Proof.
  revert st l. induction fuel as [|fuel IH]; intros st l H.
  - destruct st as [[|]|]; simpl in *.
    + apply good_fin, H.
    + apply good_fin, H.
    + exact H.
  - destruct st as [[|]|]; simpl in *.
    + unfold bind. pose proof (lexStart_spec fuel l H) as P.
      destruct (lexStart fuel l) as [[[|]|] l'|l'|l'].
      * contradiction.
      * apply IH. exact P.
      * apply IH. exact P.
      * exact P.
      * apply good_fin, P.
    + unfold bind. pose proof (lexSection_spec fuel l H) as P.
      destruct (lexSection fuel l) as [[[|]|] l'|l'|l'].
      * apply IH. exact P.
      * contradiction.
      * contradiction.
      * exact P.
      * apply good_fin, P.
    + exact H.
Qed.

(** A run started by [lex] never panics, and the items it has sent by the
    time it stops or runs out of fuel satisfy the invariant. *)
Lemma run_inv (fuel : nat) (nm : string) :
  match run fuel (lex nm inp) with
  | Ret _ l' => fin inp l' /\ ended l'
  | Panic _ => False
  | Spin l' => fin inp l'
  end.
Proof.
  apply run_from_spec. simpl. split; [apply good_lex|].
  simpl. intros H. discriminate H.
Qed.

End Run.

Lemma tokens_fin (fuel : nat) (nm : string) (inp : gostring) :
  fin inp (final (run fuel (lex nm inp))).
Proof.
  pose proof (run_inv inp fuel nm) as H.
  destruct (run fuel (lex nm inp)); simpl; [apply H|contradiction|exact H].
Qed.

Lemma tokens_ok (fuel : nat) (nm : string) (inp : gostring) :
  Forall (tok_ok inp) (tokens fuel nm inp).
Proof.
  pose proof (tokens_fin fuel nm inp) as [E T _].
  unfold tokens. rewrite E in T. exact T.
Qed.

(** A run that returns has sent exactly one EOF, as its last item. *)
Lemma run_ends_in_one_EOF (fuel : nat) (nm : string) (inp : gostring) (l : lexer) :
  run fuel (lex nm inp) = Ret tt l -> ended l.
Proof.
  intros E. pose proof (run_inv inp fuel nm) as H.
  rewrite E in H. apply H.
Qed.

Lemma tokens_sorted (fuel : nat) (nm : string) (inp : gostring) :
  StronglySorted precedes (tokens fuel nm inp).
Proof. apply (tokens_fin fuel nm inp). Qed.

Lemma StronglySorted_weaken {A} (R R' : A -> A -> Prop) (xs : list A) :
  (forall a b, R a b -> R' a b) -> StronglySorted R xs -> StronglySorted R' xs.
Proof.
  intros W. induction 1 as [|x xs S IH F]; constructor.
  - exact IH.
  - eapply Forall_impl; [|exact F]. intros a. apply W.
Qed.

(** ** More fuel does not change a result *)

Lemma lexStart_loop_mono (n : nat) :
  forall l a l', lexStart_loop n l = Ret a l' ->
  forall m, (n <= m)%nat -> lexStart_loop m l = Ret a l'.
Proof.
  induction n as [|n IH]; intros l a l' H m Le; [discriminate H|].
  destruct m as [|m]; [lia|].
  simpl in *. unfold bind in *.
  destruct (lexStart_body l) as [f l1|l1|l1]; try discriminate H.
  destruct f; try exact H.
  apply IH; [exact H|lia].
Qed.

Lemma lexSection_loop_mono (n : nat) :
  forall l a l', lexSection_loop n l = Ret a l' ->
  forall m, (n <= m)%nat -> lexSection_loop m l = Ret a l'.
Proof.
  induction n as [|n IH]; intros l a l' H m Le; [discriminate H|].
  destruct m as [|m]; [lia|].
  simpl in *. unfold bind in *.
  destruct (lexSection_body l) as [f l1|l1|l1]; try discriminate H.
  destruct f; try exact H; (apply IH; [exact H|lia]).
Qed.

Lemma call_mono (f : stateFn) (n m : nat) (l : lexer) (a : option stateFn) (l' : lexer) :
  call f n l = Ret a l' -> (n <= m)%nat -> call f m l = Ret a l'.
Proof.
  destruct f; simpl; intros H Le.
  - eapply lexStart_loop_mono; eassumption.
  - unfold lexSection, bind, get in *.
    destruct (when (0 <? len (input l)) debug_slice l) as [u0 l0|l0|l0];
      try discriminate H.
    destruct (peek l0) as [p l1|l1|l1]; try discriminate H.
    destruct (when (isEndOfLine p) (fun l0 => match emit itemTitle l0 with
                                              | Ret _ l2 => ignore l2
                                              | Panic l2 => Panic l2
                                              | Spin l2 => Spin l2
                                              end) l1) as [u l2|l2|l2];
      try discriminate H.
    destruct (lexSection_loop n l2) as [u' l3|l3|l3] eqn:E; try discriminate H.
    rewrite (lexSection_loop_mono n l2 u' l3 E m Le). exact H.
Qed.

Lemma run_from_mono (n : nat) :
  forall st l a l', run_from n st l = Ret a l' ->
  forall m, (n <= m)%nat -> run_from m st l = Ret a l'.
Proof.
  induction n as [|n IH]; intros st l a l' H m Le.
  - destruct st; [discriminate H|]. destruct m; exact H.
  - destruct st as [f|]; [|destruct m; exact H].
    destruct m as [|m]; [lia|].
    simpl in *. unfold bind in *.
    destruct (call f n l) as [st' l1|l1|l1] eqn:E; try discriminate H.
    rewrite (call_mono f n m l st' l1 E) by lia.
    apply IH; [exact H|lia].
Qed.

Lemma run_mono (n m : nat) (l : lexer) (a : unit) (l' : lexer) :
  run n l = Ret a l' -> (n <= m)%nat -> run m l = Ret a l'.
Proof. intros H Le. eapply run_from_mono; eassumption. Qed.

(** ** The token stream *)

Lemma title_para_run :
  exists l, run 30 (lex "" title_para) = Ret tt l /\
    map kind_text (items l) =
      [(itemParagraph, str "Title"); (itemParagraph, str "=====");
       (itemParagraph, nl ++ str "Paragraph text"); (itemEOF, [])].
Proof. eexists. split; vm_compute; reflexivity. Qed.

(** C2: the code breaks the claim on its own input.  On
    ["Title\n=====\n\nParagraph text\n"] the run ends, with any fuel from 30
    on, after exactly four items: Paragraph "Title", Paragraph "=====",
    Paragraph "\nParagraph text" and EOF.  Neither [itemTitle] nor
    [itemSectionAdornment] nor [itemBlankLine] is sent, so the stream is not
    Title, SectionAdornment, BlankLine, Paragraph, EOF. *)
Theorem C2_title_para_sent_as_paragraphs (fuel : nat) :
  (30 <= fuel)%nat ->
  exists l,
    run fuel (lex "" title_para) = Ret tt l /\
    map kind_text (items l) =
      [(itemParagraph, str "Title"); (itemParagraph, str "=====");
       (itemParagraph, nl ++ str "Paragraph text"); (itemEOF, [])] /\
    map ElementType (items l) <>
      [itemTitle; itemSectionAdornment; itemBlankLine; itemParagraph; itemEOF] /\
    Forall (fun it => ElementType it = itemParagraph \/ ElementType it = itemEOF)
      (items l).
Proof.
  intros Le. destruct title_para_run as (l & R & K).
  exists l. split; [eapply run_mono; eassumption|]. split; [exact K|].
  assert (E : map ElementType (items l) =
              [itemParagraph; itemParagraph; itemParagraph; itemEOF]).
  { transitivity (map fst (map kind_text (items l))).
    - rewrite map_map. apply map_ext. intros it. reflexivity.
    - rewrite K. reflexivity. }
  split; [rewrite E; discriminate|].
  apply Forall_forall. intros it I.
  apply (in_map ElementType) in I. rewrite E in I. simpl in I.
  intuition congruence.
Qed.

Lemma C2_title_para_sent_as_paragraphs_witness :
  exists l,
    run 40 (lex "" title_para) = Ret tt l /\
    map kind_text (items l) =
      [(itemParagraph, str "Title"); (itemParagraph, str "=====");
       (itemParagraph, nl ++ str "Paragraph text"); (itemEOF, [])] /\
    map ElementType (items l) <>
      [itemTitle; itemSectionAdornment; itemBlankLine; itemParagraph; itemEOF] /\
    Forall (fun it => ElementType it = itemParagraph \/ ElementType it = itemEOF)
      (items l).
Proof. apply (C2_title_para_sent_as_paragraphs 40). lia. Defined.

(** C7, as stated, fails: the Paragraph of the one-line input ["Para"]
    begins at the first byte of line 1 and carries Position 0, not 1. *)
Lemma C7_position_is_zero_based :
  map (fun it => (ElementType it, Value it, Line it, Position it))
      (tokens 10 "" (str "Para")) =
    [(itemParagraph, str "Para", 1, 0); (itemEOF, [], 1, 4)] /\
  Exists (fun it => Position it < 1) (tokens 10 "" (str "Para")).
Proof.
  split; [vm_compute; reflexivity|].
  apply Exists_cons_hd. vm_compute. reflexivity.
Qed.

(** C7, amended: for every item sent, [Position] is the 0-based byte offset
    in the input at which the item's text begins (the text is the input
    from [Position] on, over the text's length), and [Line] is a value of
    the line counter, which starts at 1. *)
Theorem C7_position_is_byte_offset (fuel : nat) (nm : string) (inp : gostring) :
  Forall (fun it =>
            0 <= Position it /\
            Position it + len (Value it) <= len inp /\
            Value it = slice inp (Position it) (Position it + len (Value it)) /\
            1 <= Line it)
         (tokens fuel nm inp).
Proof.
  eapply Forall_impl; [|apply tokens_ok].
  intros it [K N P E T L Ne]. auto.
Qed.

(** C8, as stated, fails: [item] has no id field, and none of the integers
    an item carries counts 1, 2, 3, ... along the stream of
    ["Title\n=====\n\nParagraph text\n"]. *)
Lemma C8_no_field_numbers_the_items :
  List.length (tokens 30 "" title_para) = 4%nat /\
  Forall (fun f => map f (tokens 30 "" title_para) <> [1; 2; 3; 4]) int_fields /\
  Forall (fun f => numbers f (tokens 30 "" title_para) -> False) int_fields.
Proof.
  split; [vm_compute; reflexivity|].
  split; repeat constructor; vm_compute; discriminate.
Qed.

(** C8, amended: items carry no id; what orders them is [Position], which
    is strictly increasing in the order of emission, each item beginning
    at or after the end of the text of the one before. *)
Theorem C8_positions_increase (fuel : nat) (nm : string) (inp : gostring) :
  StronglySorted
    (fun a b => Position a < Position b /\
                Position a + len (Value a) <= Position b)
    (tokens fuel nm inp).
Proof.
  eapply StronglySorted_weaken; [|apply tokens_sorted].
  unfold precedes. intros a b [H1 H2]. auto.
Qed.

(** C10: whatever the input, every item sent is an EOF, a Paragraph or a
    SectionAdornment; none of the other declared kinds, in particular no
    SystemMessage, is ever sent. *)
Theorem C10_only_three_kinds (fuel : nat) (nm : string) (inp : gostring) :
  Forall (fun it =>
            In (ElementType it) [itemEOF; itemParagraph; itemSectionAdornment] /\
            ~ In (ElementType it)
                 [itemTitle; itemError; itemSystemMessage; itemBlockquote;
                  itemLiteralBlock; itemSpace; itemBlankLine])
         (tokens fuel nm inp).
Proof.
  eapply Forall_impl; [|apply tokens_ok].
  intros it [K _ _ _ _ _ _].
  destruct (ElementType it); try discriminate K; simpl; split; auto;
    intros H; repeat (destruct H as [H|H]; [discriminate H|]); exact H.
Qed.

(** ** The cursor *)

(** C4, as stated, fails: on the fresh lexer of ["a"], [peek] returns the
    rune [next] returns but changes [width] from 0 to 1. *)
Lemma C4_peek_changes_width :
  let l := lex "" (str "a") in
  returned (peek l) = Some 97 /\ returned (next l) = Some 97 /\
  width l = 0 /\ width (final (peek l)) = 1.
Proof. vm_compute. repeat split; reflexivity. Qed.

(** C4, amended: [peek] returns exactly the rune that [next] would return,
    before the call as well as after it, and leaves the input, the
    position, the start, the line number and the items sent unchanged; it
    sets [width] to the width of that rune (0 at the end of the input).
    With a negative position both [peek] and [next] panic. *)
Theorem C4_peek_keeps_all_but_width (l : lexer) :
  match peek l with
  | Ret r l' =>
    returned (next l') = Some r /\ returned (next l) = Some r /\
    l' = set_width l (peek_width l)
  | Panic l' => l' = l /\ next l = Panic l
  | Spin _ => False
  end.
Proof.
  destruct (Z.lt_ge_cases (pos l) 0) as [N|N].
  - rewrite peek_neg by exact N. split; [reflexivity|apply next_neg; exact N].
  - rewrite peek_eq by exact N.
    assert (E : returned (next l) = Some (peek_rune l)).
    { unfold peek_rune. destruct (len (input l) <=? pos l) eqn:C.
      - apply Z.leb_le in C. rewrite next_eof by exact C. reflexivity.
      - apply Z.leb_gt in C. rewrite next_in by lia. reflexivity. }
    split; [|split; [exact E|reflexivity]].
    rewrite <- E. unfold next. simpl. 
    destruct (len (input l) <=? pos l); [reflexivity|].
    destruct (pos l <? 0); reflexivity.
Qed.

(** C6, as stated, fails: after three [next] on ["abé"] the cursor is at
    byte 4 with width 2; two [backup] followed by two [next] leave it at
    byte 2 with width 1. *)
Lemma C6_two_backups_do_not_round_trip :
  let l := final ((next ;;; next ;;; next) (lex "" (str "abé"))) in
  let l' := final ((backup ;;; backup ;;; next ;;; next) l) in
  (pos l, width l) = (4, 2) /\ (pos l', width l') = (2, 1).
Proof. vm_compute. split; reflexivity. Qed.

(** C6, amended: [backup] takes no count and undoes the last [next] only.
    After a [next], one [backup] followed by one [next] returns the same
    rune and brings the lexer back to the state it had before the
    [backup], position and width included. *)
Theorem C6_backup_then_next (l l' : lexer) (r : Z) :
  next l = Ret r l' ->
  (backup ;;; next) l' = Ret r l'.
Proof.
  intros H. unfold bind, backup.
  destruct (Z.lt_ge_cases (pos l) 0) as [N|N].
  { rewrite next_neg in H by exact N. discriminate H. }
  destruct (Z.le_gt_cases (len (input l)) (pos l)) as [C|C].
  - rewrite next_eof in H by exact C. inversion H; subst r l'; clear H.
    rewrite next_eof by (simpl; lia).
    unfold set_width, set_pos; simpl. rewrite Z.sub_0_r. reflexivity.
  - rewrite next_in in H by lia. inversion H; subst r l'; clear H.
    destruct (width_at_bounds l) as [W1 W2]; [lia|].
    rewrite next_in by (simpl; lia).
    unfold rune_at, width_at, set_width, set_pos; simpl.
    rewrite Z.add_simpl_r. reflexivity.
Qed.

Lemma C6_backup_then_next_witness :
  let l' := final (next (lex "" (str "é"))) in
  (backup ;;; next) l' = Ret 233 l'.
Proof.
  apply (C6_backup_then_next (lex "" (str "é"))). vm_compute. reflexivity.
Defined.

Lemma boundary_range (s : gostring) (p : Z) : boundary s p -> 0 <= p <= len s.
Proof.
  induction 1 as [|p B IH Lt].
  - pose proof (len_nonneg s). lia.
  - assert (F : from s p <> []).
    { intros E. apply from_nil_iff in E; lia. }
    pose proof (utf8_facts.width_bounds _ F) as W.
    rewrite len_from in W by lia. lia.
Qed.

Lemma boundary_inv (s : gostring) (p : Z) :
  boundary s p ->
  p = 0 \/ exists q, boundary s q /\ 0 <= q < len s /\ q < p /\
                     p = q + snd (utf8.DecodeRuneInString (from s q)).
Proof.
  intros B. destruct B as [|q B Lt]; [left; reflexivity|right].
  pose proof (boundary_range s q B) as R.
  exists q. split; [exact B|]. split; [lia|]. split; [|reflexivity].
  assert (F : from s q <> []).
  { intros E. apply from_nil_iff in E; lia. }
  pose proof (utf8_facts.width_bounds _ F). lia.
Qed.

Lemma boundary_width (s : gostring) (p : Z) :
  boundary s p -> p < len s ->
  1 <= snd (utf8.DecodeRuneInString (from s p)).
Proof.
  intros B Lt. pose proof (boundary_range s p B) as R.
  assert (F : from s p <> []).
  { intros E. apply from_nil_iff in E; lia. }
  pose proof (utf8_facts.width_bounds _ F). lia.
Qed.

(** No boundary lies strictly between a boundary and the next one. *)
Lemma no_boundary_between (s : gostring) (b : Z) :
  boundary s b -> b < len s ->
  (forall a, boundary s a -> a < b ->
             a + snd (utf8.DecodeRuneInString (from s a)) <= b) ->
  forall a, boundary s a ->
            a <= b \/ b + snd (utf8.DecodeRuneInString (from s b)) <= a.
Proof.
  intros Bb Lb Below a Ba.
  induction Ba as [|a Ba IH La].
  - left. apply (boundary_range s b Bb).
  - pose proof (boundary_width s a Ba La) as Wa.
    destruct IH as [IH|IH]; [|right; lia].
    destruct (Z.eq_dec a b) as [E|E]; [subst a; right; lia|].
    left. apply Below; [exact Ba|lia].
Qed.

Lemma boundary_chain (s : gostring) (b : Z) :
  boundary s b ->
  forall a, boundary s a -> a < b ->
            a + snd (utf8.DecodeRuneInString (from s a)) <= b.
Proof.
  induction 1 as [|b Bb IH Lb]; intros a Ba Lt.
  - pose proof (boundary_range s a Ba). lia.
  - destruct (no_boundary_between s b Bb Lb IH a Ba) as [C|C]; [|lia].
    destruct (Z.eq_dec a b) as [E|E]; [subst a; lia|].
    pose proof (boundary_width s b Bb Lb).
    assert (a + snd (utf8.DecodeRuneInString (from s a)) <= b)
      by (apply IH; [exact Ba|lia]).
    lia.
Qed.

Lemma mid_rune_not_boundary (s : gostring) (p : Z) :
  mid_rune s p -> ~ boundary s p.
Proof.
  intros (q & Bq & Lq & Hq) Bp.
  destruct (no_boundary_between s q Bq Lq (boundary_chain s q Bq) p Bp); lia.
Qed.

Lemma apply_ops_disciplined (os : list cursorOp) :
  forall (l : lexer) (b : bool),
    boundary (input l) (pos l) ->
    (b = true -> boundary (input l) (pos l - width l)) ->
    disciplined_after b os = true ->
    exists l', apply_ops os l = Ret tt l' /\ input l' = input l /\
               boundary (input l) (pos l').
Proof.
  induction os as [|o os IH]; intros l b B Bk D.
  - exists l. simpl. auto.
  - pose proof (boundary_range _ _ B) as R.
    destruct o; simpl in D |- *; unfold bind.
    + (* next *)
      destruct (Z.eq_dec (pos l) (len (input l))) as [E|E].
      * rewrite next_eof by lia. unfold ret.
        destruct (IH (set_width l 0) true) as (l' & Hr & Hi & Hb); auto.
        { simpl. intros _. rewrite Z.sub_0_r. exact B. }
        exists l'. auto.
      * rewrite next_in by lia. unfold ret.
        set (l1 := set_pos (set_width l (width_at l)) (pos l + width_at l)).
        destruct (IH l1 true) as (l' & Hr & Hi & Hb); auto.
        { simpl. apply boundary_step; [exact B|lia]. }
        { simpl. intros _. rewrite Z.add_simpl_r. exact B. }
        exists l'. auto.
    + (* backup *)
      apply andb_true_iff in D. destruct D as [Db D]. unfold backup.
      destruct (IH (set_pos l (pos l - width l)) false) as (l' & Hr & Hi & Hb); auto.
      { intros X. discriminate X. }
      exists l'. auto.
    + (* peek *)
      rewrite peek_eq by lia. unfold ret.
      destruct (IH (set_width l (peek_width l)) false) as (l' & Hr & Hi & Hb); auto.
      { intros X. discriminate X. }
      exists l'. auto.
Qed.

(** C5, as stated, fails: on ["éa"], [next], [next], [backup], [backup]
    leave the index at byte 1, inside the two-byte rune that begins at
    byte 0. *)
Lemma C5_second_backup_lands_mid_rune :
  exists l,
    apply_ops [opNext; opNext; opBackup; opBackup] (lex "" (str "éa")) = Ret tt l /\
    pos l = 1 /\ mid_rune (str "éa") 1 /\ ~ boundary (str "éa") 1.
Proof.
  assert (M : mid_rune (str "éa") 1).
  { exists 0. split; [constructor|]. vm_compute. repeat split; reflexivity. }
  eexists. split; [vm_compute; reflexivity|].
  split; [reflexivity|]. split; [exact M|].
  apply mid_rune_not_boundary. exact M.
Qed.

(** C5, amended: for every input, also with multi-byte runes, a sequence of
    [next], [peek] and [backup] in which every [backup] comes directly
    after a [next] runs without panic and leaves the index on a rune
    boundary or at the byte length of the input. *)
Theorem C5_index_on_rune_boundary
        (nm : string) (inp : gostring) (os : list cursorOp) :
  disciplined os = true ->
  exists l, apply_ops os (lex nm inp) = Ret tt l /\
            input l = inp /\ boundary inp (pos l) /\ 0 <= pos l <= len inp.
Proof.
  intros D.
  destruct (apply_ops_disciplined os (lex nm inp) false) as (l & Hr & Hi & Hb).
  - simpl. constructor.
  - intros X. discriminate X.
  - exact D.
  - exists l. simpl in *. repeat split; auto; apply (boundary_range _ _ Hb).
Qed.

Lemma C5_index_on_rune_boundary_witness :
  exists l,
    apply_ops [opNext; opBackup; opPeek; opNext; opNext; opBackup; opPeek]
              (lex "" (str "世界é")) = Ret tt l /\
    input l = str "世界é" /\ boundary (str "世界é") (pos l) /\
    0 <= pos l <= len (str "世界é").
Proof.
  apply (C5_index_on_rune_boundary
           "" (str "世界é")
           [opNext; opBackup; opPeek; opNext; opNext; opBackup; opPeek]).
  reflexivity.
Defined.

(** ** The transition from Start to Section *)

Lemma adornment_ascii (r : Z) : isSectionAdornment r = true -> 33 <= r <= 126.
Proof.
  unfold isSectionAdornment, sectionAdornments. cbn [existsb]. intros H.
  repeat (apply orb_true_iff in H; destruct H as [H|H];
          [apply Z.eqb_eq in H; lia|]).
  discriminate H.
Qed.

Lemma adornment_one_byte (s : gostring) :
  isSectionAdornment (fst (utf8.DecodeRuneInString s)) = true ->
  exists b t, s = b :: t /\ utf8.DecodeRuneInString s = (byteval b, 1).
Proof.
  intros A. apply adornment_ascii in A.
  destruct (utf8_facts.ascii_or_above s) as [(b & t & E & _ & D)|H]; [|lia].
  exists b, t. auto.
Qed.

(** One turn of the loop of [lexStart] with an adornment character under
    the cursor. *)
Lemma lexStart_body_on_adornment (l : lexer) :
  0 <= start l <= pos l ->
  0 <= pos l < len (input l) ->
  isSectionAdornment (rune_at l) = true ->
  lexStart_body l =
    if pos l =? 1 then Ret (Return (Some lexSectionFn)) (set_width l (width_at l))
    else advance (set_width l (width_at l)).
Proof.
  intros S R A. unfold lexStart_body, bind, get, ret.
  destruct (len (input l) =? 0) eqn:E0; [apply Z.eqb_eq in E0; lia|].
  assert (D : debug_slice l = Ret tt l).
  { unfold debug_slice.
    destruct S as [S1 S2]. destruct R as [_ R].
    apply Z.leb_le in S1, S2. apply Z.lt_le_incl, Z.leb_le in R.
    rewrite S1, S2, R. reflexivity. }
  rewrite D.
  rewrite current_eq by lia. rewrite A.
  rewrite peek_eq by lia. rewrite peek_rune_current by lia. rewrite A.
  assert (W : peek_width l = width_at l).
  { unfold peek_width. destruct (len (input l) <=? pos l) eqn:C; [|reflexivity].
    apply Z.leb_le in C. lia. }
  rewrite W. cbn [pos set_width].
  destruct (pos l =? 1); [reflexivity|].
  destruct (isEndOfLine (rune_at l)) eqn:EL; [|reflexivity].
  apply isEndOfLine_not_adornment in EL. congruence.
Qed.

Lemma lexStart_on_two_adornments (fuel : nat) (nm : string) (inp : gostring) :
  two_adornments inp = true ->
  exists l, lexStart (S (S fuel)) (lex nm inp) = Ret (Some lexSectionFn) l.
Proof.
  unfold two_adornments. intros H. apply andb_true_iff in H. destruct H as [A1 A2].
  destruct (adornment_one_byte inp A1) as (b0 & t & E & D0).
  rewrite D0 in A1, A2. simpl in A1, A2. subst inp.
  change (from (b0 :: t) 1) with t in A2.
  destruct (adornment_one_byte t A2) as (b1 & t' & E & D1).
  rewrite D1 in A2. simpl in A2. subst t.
  set (l0 := lex nm (b0 :: b1 :: t')).
  assert (L : 2 <= len (input l0)).
  { unfold l0, len. simpl input. simpl List.length. lia. }
  assert (R0 : rune_at l0 = byteval b0 /\ width_at l0 = 1).
  { unfold rune_at, width_at, l0. simpl input. simpl pos.
    change (from (b0 :: b1 :: t') 0) with (b0 :: b1 :: t').
    rewrite D0. auto. }
  destruct R0 as [R0 W0].
  assert (P0 : pos l0 = 0) by reflexivity.
  assert (B0 : lexStart_body l0 = advance (set_width l0 (width_at l0))).
  { rewrite lexStart_body_on_adornment;
      [rewrite P0; reflexivity|simpl; lia|lia|].
    rewrite R0. exact A1. }
  pose proof (adornment_ascii _ A1) as Asc.
  set (l1 := set_pos (set_width (set_width l0 (width_at l0)) (width_at l0))
                     (pos l0 + width_at l0)).
  assert (Adv : advance (set_width l0 (width_at l0)) = Ret Continue l1).
  { unfold advance, bind.
    rewrite next_in by (cbn [pos input set_width]; lia).
    change (rune_at (set_width l0 (width_at l0))) with (rune_at l0).
    rewrite R0.
    destruct (byteval b0 =? EOF) eqn:Q;
      [apply Z.eqb_eq in Q; unfold EOF in Q; lia|reflexivity]. }
  assert (P1 : pos l1 = 1) by (unfold l1; cbn [pos set_pos]; lia).
  assert (I1 : input l1 = input l0) by reflexivity.
  assert (R1 : rune_at l1 = byteval b1).
  { unfold rune_at. rewrite P1, I1. unfold l0. simpl input.
    change (from (b0 :: b1 :: t') 1) with (b1 :: t').
    rewrite D1. reflexivity. }
  assert (B1 : lexStart_body l1 =
               Ret (Return (Some lexSectionFn)) (set_width l1 (width_at l1))).
  { rewrite lexStart_body_on_adornment;
      [rewrite P1; reflexivity|rewrite P1; simpl; lia|rewrite I1; lia|].
    rewrite R1. exact A2. }
  unfold lexStart. cbn [lexStart_loop]. unfold bind.
  rewrite B0, Adv, B1. eexists. reflexivity.
Qed.

(** C3, as stated, fails: on ["=-\n"] the first two runes are two
    different adornment characters, and the lexer goes to the Section
    state all the same. *)
Lemma C3_transition_not_as_claimed :
  two_identical_adornments (str "=-") = false /\
  returned (lexStart 5 (lex "" (str "=-" ++ nl))) = Some (Some lexSectionFn) /\
  map kind_text (tokens 5 "" (str "=-" ++ nl)) =
    [(itemSectionAdornment, str "=-"); (itemEOF, [])].
Proof. vm_compute. repeat split; reflexivity. Qed.

(** C3, amended: in the Start state, with a rune other than an end of line
    under the cursor, the lexer goes to the Section state only when the
    cursor is at byte offset 1 of the input and that rune is an adornment
    character: the test on the first two runes is made at the start of
    the document only.  And it does go there whenever the input begins
    with two adornment characters, whether they are the same or not. *)
Theorem C3_section_only_at_offset_one
        (fuel : nat) (nm : string) (inp : gostring) (l l' : lexer) :
  at_start inp l ->
  (isEndOfLine (rune_at l) = false ->
   lexStart_body l = Ret (Return (Some lexSectionFn)) l' ->
   pos l = 1 /\ isSectionAdornment (rune_at l) = true) /\
  (two_adornments inp = true ->
   exists l1, lexStart (S (S fuel)) (lex nm inp) = Ret (Some lexSectionFn) l1).
Proof.
  intros H. split.
  - intros _ E. destruct (lexStart_body_spec inp l H) as (f & l2 & E2 & P).
    rewrite E in E2. inversion E2; subst f l2. simpl in P. apply P.
  - apply lexStart_on_two_adornments.
Qed.

Lemma C3_section_only_at_offset_one_witness :
  let l := final (advance (lex "" (str "=-" ++ nl))) in
  (pos l = 1 /\ isSectionAdornment (rune_at l) = true) /\
  (exists l1, lexStart 2 (lex "" (str "=-" ++ nl)) = Ret (Some lexSectionFn) l1).
Proof.
  assert (H : at_start (str "=-" ++ nl) (final (advance (lex "" (str "=-" ++ nl))))).
  { split; [|vm_compute; reflexivity].
    constructor; try (vm_compute; reflexivity); try (vm_compute; discriminate);
      constructor. }
  destruct (C3_section_only_at_offset_one
              0 "" (str "=-" ++ nl)
              (final (advance (lex "" (str "=-" ++ nl))))
              (final (peek (final (advance (lex "" (str "=-" ++ nl))))))
              H) as [A B].
  split; [apply A; vm_compute; reflexivity|apply B; vm_compute; reflexivity].
Defined.

(** ** A run that never ends *)

(** At the end of the input the loop of [lexSection] makes no progress. *)
Lemma lexSection_loop_at_end (n : nat) :
  forall l, len (input l) <= pos l ->
  exists l', lexSection_loop n l = Spin l' /\ items l' = items l.
Proof.
  induction n as [|n IH]; intros l H.
  - exists l. split; reflexivity.
  - simpl. unfold bind, lexSection_body, bind, ret.
    rewrite next_eof by exact H.
    rewrite EOF_not_adornment. change (isEndOfLine EOF) with false. cbv iota.
    destruct (IH (set_width l 0) H) as (l' & E & I).
    exists l'. split; [exact E|exact I].
Qed.

(** C1: on the input ["=="], an adornment line without a newline, the run
    never sends a terminal item: whatever the fuel, it is still looping,
    with no item sent.  [lexStart] hands over to [lexSection] at byte 1,
    and the loop of [lexSection] has no case for [EOF]. *)
Theorem C1_adornment_without_newline_spins (fuel : nat) (nm : string) :
  exists l, run fuel (lex nm (str "==")) = Spin l /\ items l = [].
Proof.
  set (l0 := lex nm (str "==")).
  destruct fuel as [|f]; [exists l0; split; reflexivity|].
  unfold run. cbn [run_from call]. unfold bind at 1.
  destruct f as [|[|f]].
  - eexists. split; reflexivity.
  - eexists. split; reflexivity.
  - set (l1 := final (lexStart 2 l0)).
    assert (E1 : lexStart (S (S f)) l0 = Ret (Some lexSectionFn) l1).
    { apply (lexStart_loop_mono 2); [reflexivity|lia]. }
    rewrite E1. cbn [run_from call]. unfold bind at 1.
    set (lA := final (peek l1)).
    set (lB := final (lexSection_body lA)).
    destruct (lexSection_loop_at_end f lB) as (l' & E & I).
    { unfold lB, lA, l1, l0. vm_compute. discriminate. }
    assert (E2 : lexSection (S f) l1 = Spin l').
    { unfold lexSection, bind, get.
      change (when (0 <? len (input l1)) debug_slice l1) with (Ret tt l1).
      cbv iota beta.
      change (peek l1) with (Ret 61 lA). cbv iota beta.
      change (isEndOfLine 61) with false. unfold when, ret.
      cbn [lexSection_loop]. unfold bind.
      change (lexSection_body lA) with (Ret Continue lB). cbv iota beta.
      rewrite E. reflexivity. }
    rewrite E2. exists l'. split; [reflexivity|]. rewrite I. reflexivity.
Qed.

(** ** Further facts about the decoder *)

Lemma rune_nonneg (s : gostring) : 0 <= fst (utf8.DecodeRuneInString s).
Proof.
  destruct (utf8_facts.ascii_or_above s) as [(b & t & _ & _ & D)|H]; [|lia].
  rewrite D. simpl. apply byteval_range.
Qed.

Lemma rune_not_EOF (s : gostring) :
  (fst (utf8.DecodeRuneInString s) =? EOF) = false.
Proof.
  apply Z.eqb_neq. pose proof (rune_nonneg s). unfold EOF. lia.
Qed.

Lemma width_le_4 (s : gostring) : 0 <= snd (utf8.DecodeRuneInString s) <= 4.
Proof.
  unfold utf8.DecodeRuneInString.
  repeat match goal with
         | |- context [match ?x with _ => _ end] => destruct x
         end; simpl; lia.
Qed.

(** A one-byte rune below 128 is the byte itself. *)
Lemma decode_ascii_byte (b : byte) (t : gostring) :
  byteval b < 128 -> utf8.DecodeRuneInString (b :: t) = (byteval b, 1).
Proof.
  intros H. unfold utf8.DecodeRuneInString.
  apply Z.ltb_lt in H. rewrite H. reflexivity.
Qed.

(** The bytes a rune spans after its first one are all from 128 on: an
    ASCII byte [k] places after the start of a rune lies beyond it. *)
Lemma ascii_after_rune (s : gostring) (k : Z) (b : byte) (t : gostring) :
  0 < k -> from s k = b :: t -> byteval b < 128 ->
  snd (utf8.DecodeRuneInString s) <= k.
Proof.
  intros K F A.
  destruct s as [|b0 s1]; [simpl; lia|].
  unfold utf8.DecodeRuneInString.
  destruct (byteval b0 <? 128); [simpl; lia|].
  destruct (utf8.lead (byteval b0)) as [[[sz lo] hi]|] eqn:Ld; [|simpl; lia].
  apply utf8_facts.lead_cases in Ld. destruct Ld as (Lo & Hi & _).
  destruct (len (b0 :: s1) <? sz); [simpl; lia|].
  destruct s1 as [|b1 s2]; [simpl; lia|].
  destruct ((byteval b1 <? lo) || (hi <? byteval b1)) eqn:C1; [simpl; lia|].
  apply orb_false_iff in C1. destruct C1 as [C1 _]. apply Z.ltb_ge in C1.
  assert (K1 : k <> 1).
  { intros ->. unfold from in F. simpl in F. inversion F; subst. lia. }
  destruct (sz <=? 2); [simpl; lia|].
  destruct s2 as [|b2 s3]; [simpl; lia|].
  destruct (negb (utf8.cont (byteval b2))) eqn:C2; [simpl; lia|].
  apply negb_false_iff in C2. unfold utf8.cont, utf8.locb in C2.
  apply andb_true_iff in C2. destruct C2 as [C2 _]. apply Z.leb_le in C2.
  assert (K2 : k <> 2).
  { intros ->. unfold from in F. simpl in F. inversion F; subst. lia. }
  destruct (sz <=? 3); [simpl; lia|].
  destruct s3 as [|b3 s4]; [simpl; lia|].
  destruct (negb (utf8.cont (byteval b3))) eqn:C3; [simpl; lia|].
  apply negb_false_iff in C3. unfold utf8.cont, utf8.locb in C3.
  apply andb_true_iff in C3. destruct C3 as [C3 _]. apply Z.leb_le in C3.
  assert (K3 : k <> 3).
  { intros ->. unfold from in F. simpl in F. inversion F; subst. lia. }
  simpl. lia.
Qed.

Lemma from_from (s : gostring) (p k : Z) :
  0 <= p -> 0 <= k -> from (from s p) k = from s (p + k).
Proof.
  intros P K. unfold from. rewrite skipn_skipn.
  f_equal. lia.
Qed.

Lemma eol_rune_is_byte (s : gostring) :
  isEndOfLine (fst (utf8.DecodeRuneInString s)) = true ->
  exists b t, s = b :: t /\ eol_byte b = true /\
              utf8.DecodeRuneInString s = (byteval b, 1).
Proof.
  intros E.
  assert (R : fst (utf8.DecodeRuneInString s) < 128).
  { unfold isEndOfLine in E. apply orb_true_iff in E.
    destruct E as [E|E]; apply Z.eqb_eq in E; lia. }
  destruct (utf8_facts.ascii_or_above s) as [(b & t & Es & _ & D)|H]; [|lia].
  exists b, t. split; [exact Es|]. split; [|exact D].
  rewrite D in E. exact E.
Qed.

Lemma eol_byte_is_rune (b : byte) (t : gostring) :
  eol_byte b = true ->
  utf8.DecodeRuneInString (b :: t) = (byteval b, 1) /\
  isEndOfLine (byteval b) = true.
Proof.
  intros E. split; [|exact E]. apply decode_ascii_byte.
  unfold eol_byte, isEndOfLine in E. apply orb_true_iff in E.
  destruct E as [E|E]; apply Z.eqb_eq in E; lia.
Qed.

(** ** The loop bodies as equations *)

Lemma debug_slice_in_bounds (l : lexer) :
  0 <= start l <= pos l -> pos l <= len (input l) -> debug_slice l = Ret tt l.
Proof.
  intros [S1 S2] P. unfold debug_slice.
  apply Z.leb_le in S1, S2, P. rewrite S1, S2, P. reflexivity.
Qed.

Lemma emit_in_bounds (t : itemElement) (l : lexer) :
  0 <= start l <= pos l -> pos l <= len (input l) ->
  emit t l = Ret tt (emitted t l).
Proof.
  intros [S1 S2] P. unfold emit.
  apply Z.leb_le in S1, S2, P. rewrite S1, S2, P. reflexivity.
Qed.

Lemma peek_width_inside (l : lexer) :
  pos l < len (input l) -> peek_width l = width_at l.
Proof.
  intros H. unfold peek_width. apply Z.leb_gt in H. rewrite H. reflexivity.
Qed.

Lemma advance_eq (l : lexer) :
  0 <= pos l ->
  advance l =
    if pos l <? len (input l) then Ret Continue (moved l)
    else Ret Break (set_width l 0).
Proof.
  intros P. unfold advance, bind, ret.
  destruct (pos l <? len (input l)) eqn:C.
  - apply Z.ltb_lt in C. rewrite next_in by lia.
    unfold rune_at. rewrite rune_not_EOF. reflexivity.
  - apply Z.ltb_ge in C. rewrite next_eof by lia. reflexivity.
Qed.

Lemma lexStart_body_eq (l : lexer) :
  0 <= start l <= pos l -> pos l <= len (input l) -> len (input l) <> 0 ->
  lexStart_body l =
    if isSectionAdornment (rune_at l) then
      if pos l =? 1
      then Ret (Return (Some lexSectionFn)) (set_width l (width_at l))
      else advance (set_width l (width_at l))
    else if isEndOfLine (rune_at l) then
      let l1 := set_width (set_line l (line l + 1)) (width_at l) in
      advance (ignored (if start l <? pos l then emitted itemParagraph l1 else l1))
    else advance l.
Proof.
  intros S P N.
  destruct (isSectionAdornment (rune_at l)) eqn:A.
  { apply lexStart_body_on_adornment; [exact S| |exact A].
    split; [lia|]. apply rune_adornment_inside; [lia|exact A]. }
  unfold lexStart_body, bind, get, ret.
  destruct (len (input l) =? 0) eqn:E0; [apply Z.eqb_eq in E0; lia|].
  rewrite debug_slice_in_bounds by assumption.
  rewrite current_eq by lia. rewrite A.
  destruct (isEndOfLine (rune_at l)) eqn:EL; [|reflexivity].
  pose proof (rune_eol_inside l ltac:(lia) EL) as In.
  unfold bump_line. rewrite peek_eq by (simpl; lia).
  rewrite peek_rune_set_line. rewrite peek_rune_current by lia. rewrite A.
  change (peek_width (set_line l (line l + 1))) with (peek_width l).
  rewrite peek_width_inside by lia.
  cbn [pos start set_width set_line]. cbv zeta.
  destruct (start l <? pos l) eqn:SP.
  - unfold when. rewrite emit_in_bounds by (simpl; lia). reflexivity.
  - reflexivity.
Qed.

Lemma backup_moved (l : lexer) :
  set_pos (moved l) (pos (moved l) - width (moved l)) = set_width l (width_at l).
Proof.
  unfold moved, set_pos, set_width. simpl.
  rewrite Z.add_simpl_r. reflexivity.
Qed.

Lemma lexSection_body_eq (l : lexer) :
  0 <= start l <= pos l -> pos l <= len (input l) ->
  lexSection_body l =
    if pos l <? len (input l) then
      if isSectionAdornment (rune_at l) then Ret Continue (moved l)
      else if isEndOfLine (rune_at l) then
        Ret Break
            (ignored (set_line (emitted itemSectionAdornment
                                        (set_width l (width_at l)))
                               (line l + 1)))
      else Ret Continue (moved l)
    else Ret Continue (set_width l 0).
Proof.
  intros S P. unfold lexSection_body, bind, get, ret.
  destruct (pos l <? len (input l)) eqn:C.
  - apply Z.ltb_lt in C. rewrite next_in by lia. fold (moved l).
    destruct (width_at_bounds l) as [W1 W2]; [lia|].
    destruct (isSectionAdornment (rune_at l)).
    { assert (D : when (0 <? len (input (moved l))) debug_slice (moved l)
                  = Ret tt (moved l)).
      { unfold when. destruct (0 <? len (input (moved l))); [|reflexivity].
        apply debug_slice_in_bounds; simpl; lia. }
      rewrite D. reflexivity. }
    destruct (isEndOfLine (rune_at l)); [|reflexivity].
    unfold backup. rewrite backup_moved.
    rewrite emit_in_bounds by (simpl; lia).
    reflexivity.
  - apply Z.ltb_ge in C. rewrite next_eof by lia.
    rewrite EOF_not_adornment. reflexivity.
Qed.

Lemma lexSection_eq (fuel : nat) (l : lexer) :
  0 <= start l <= pos l -> pos l <= len (input l) ->
  isEndOfLine (peek_rune l) = false ->
  lexSection fuel l =
    match lexSection_loop fuel (set_width l (peek_width l)) with
    | Ret _ l' => Ret (Some lexStartFn) l'
    | Panic l' => Panic l'
    | Spin l' => Spin l'
    end.
Proof.
  intros S P E. unfold lexSection, bind, get, ret.
  assert (D : when (0 <? len (input l)) debug_slice l = Ret tt l).
  { unfold when. destruct (0 <? len (input l)); [|reflexivity].
    apply debug_slice_in_bounds; assumption. }
  rewrite D. rewrite peek_eq by lia. rewrite E. reflexivity.
Qed.

(** ** Further properties of the cursor *)

(** X11: [next] returns [EOF] exactly at (or beyond) the end of the input,
    where it leaves the position alone and sets the width to 0; inside the
    input it returns the rune under the cursor, never [EOF], and moves the
    position forward by the width of that rune, between 1 and 4 bytes and
    never past the end.  It panics exactly when the position is negative:
    it returns only from a position that is not negative, and panics only
    from a negative one, leaving the lexer as it was. *)
Theorem next_advances_or_reports_EOF (l : lexer) :
  match next l with
  | Ret r l' =>
    0 <= pos l /\
    (r = EOF <-> len (input l) <= pos l) /\
    pos l' = pos l + width l' /\ 0 <= width l' <= 4 /\
    (len (input l) <= pos l -> l' = set_width l 0) /\
    (pos l < len (input l) ->
     r = rune_at l /\ l' = moved l /\ 1 <= width l' /\ pos l' <= len (input l))
  | Panic l' => pos l < 0 /\ l' = l
  | Spin _ => False
  end.
Proof.
  destruct (Z.lt_ge_cases (pos l) 0) as [N|N].
  { rewrite next_neg by exact N. auto. }
  destruct (Z.le_gt_cases (len (input l)) (pos l)) as [C|C].
  - rewrite next_eof by exact C. simpl.
    split; [exact N|].
    repeat split; try lia; try reflexivity; intros; lia.
  - rewrite next_in by lia.
    destruct (width_at_bounds l) as [W1 W2]; [lia|].
    pose proof (width_le_4 (from (input l) (pos l))) as W4.
    pose proof (rune_nonneg (from (input l) (pos l))) as R0.
    fold (width_at l) in W4. fold (rune_at l) in R0.
    simpl. split; [exact N|].
    unfold EOF. repeat split; try lia; try reflexivity.
Qed.

(** X12: with the cursor inside the input, [current] and [peek] return the
    same rune, the one that begins at the cursor; at the end of the input
    [current] returns [utf8.RuneError] and [peek] returns [EOF].
    [current] never changes the lexer. *)
Theorem current_and_peek_read_the_same_rune (l : lexer) :
  0 <= pos l <= len (input l) ->
  current l = Ret (rune_at l) l /\
  returned (peek l) = Some (if pos l <? len (input l) then rune_at l else EOF) /\
  (pos l = len (input l) -> rune_at l = utf8.RuneError).
Proof.
  intros H. split; [apply current_eq; exact H|].
  split; [|apply rune_at_end].
  rewrite peek_eq by lia. simpl. unfold peek_rune.
  destruct (pos l <? len (input l)) eqn:C.
  - apply Z.ltb_lt in C. apply Z.leb_gt in C. rewrite C. reflexivity.
  - apply Z.ltb_ge in C. apply Z.leb_le in C. rewrite C. reflexivity.
Qed.

Lemma current_and_peek_read_the_same_rune_witness :
  let l := final (next (lex "" (str "aé"))) in
  current l = Ret 233 l /\
  returned (peek l) = Some 233 /\
  (pos l = len (input l) -> rune_at l = utf8.RuneError).
Proof.
  apply (current_and_peek_read_the_same_rune (final (next (lex "" (str "aé"))))).
  vm_compute. split; discriminate.
Defined.

(** X13: called right after a [next] that read a rune, [previous] returns
    that rune and leaves the lexer as it was; after a [next] at the end of
    the input it returns [utf8.RuneError], not [EOF]. *)
Theorem previous_after_next (l l' : lexer) (r : Z) :
  pos l <= len (input l) ->
  next l = Ret r l' ->
  previous l' =
    Ret (if pos l <? len (input l) then r else utf8.RuneError) l'.
Proof.
  intros Le H.
  destruct (Z.lt_ge_cases (pos l) 0) as [N|N].
  { rewrite next_neg in H by exact N. discriminate H. }
  unfold previous, bind, backup, ret.
  destruct (pos l <? len (input l)) eqn:C.
  - apply Z.ltb_lt in C. rewrite next_in in H by lia.
    inversion H; subst r l'; clear H.
    destruct (width_at_bounds l) as [W1 W2]; [lia|].
    fold (moved l). rewrite backup_moved.
    rewrite current_eq by (simpl; lia).
    rewrite next_in by (simpl; lia). reflexivity.
  - apply Z.ltb_ge in C. rewrite next_eof in H by lia.
    inversion H; subst r l'; clear H.
    assert (E : set_pos (set_width l 0) (pos (set_width l 0) - width (set_width l 0))
                = set_width l 0).
    { unfold set_pos, set_width; simpl. rewrite Z.sub_0_r. reflexivity. }
    rewrite E. rewrite current_eq by (simpl; lia).
    rewrite next_eof by (simpl; lia).
    rewrite rune_at_end by (simpl; lia). reflexivity.
Qed.

Lemma previous_after_next_witness :
  let l' := final (next (lex "" (str "世界"))) in
  previous l' = Ret 19990 l'.
Proof.
  apply (previous_after_next (lex "" (str "世界"))); vm_compute;
    [discriminate|reflexivity].
Defined.

(** X14: the adornment characters are exactly the 32 printable ASCII
    characters that are neither letters, digits nor the space; none of them
    is a space, a tab or an end of line, and [EOF] and [utf8.RuneError] are
    not among them. *)
Theorem adornments_are_the_ascii_punctuation (r : Z) :
  isSectionAdornment r = ascii_punctuation r /\
  (isSectionAdornment r = true -> isSpace r = false /\ isEndOfLine r = false) /\
  isSectionAdornment EOF = false /\ isSectionAdornment utf8.RuneError = false.
Proof.
  assert (E : isSectionAdornment r = ascii_punctuation r).
  { destruct (Z.lt_ge_cases r 0) as [N|N].
    { unfold isSectionAdornment, sectionAdornments, ascii_punctuation.
      cbn [existsb].
      repeat match goal with
             | |- context [?a =? r] =>
               replace (a =? r) with false by (symmetry; apply Z.eqb_neq; lia)
             end.
      repeat match goal with
             | |- context [?a <=? r] =>
               replace (a <=? r) with false by (symmetry; apply Z.leb_gt; lia)
             end.
      reflexivity. }
    destruct (Z.lt_ge_cases r 127) as [U|U].
    - assert (F : forallb (fun n => Bool.eqb (isSectionAdornment (Z.of_nat n))
                                             (ascii_punctuation (Z.of_nat n)))
                          (seq 0 127) = true) by (vm_compute; reflexivity).
      rewrite forallb_forall in F.
      specialize (F (Z.to_nat r)).
      rewrite Z2Nat.id in F by lia.
      apply Bool.eqb_prop. apply F. apply in_seq. lia.
    - unfold isSectionAdornment, sectionAdornments, ascii_punctuation.
      cbn [existsb].
      repeat match goal with
             | |- context [?a =? r] =>
               replace (a =? r) with false by (symmetry; apply Z.eqb_neq; lia)
             end.
      repeat match goal with
             | |- context [r <=? ?a] =>
               replace (r <=? a) with false by (symmetry; apply Z.leb_gt; lia)
             end.
      rewrite !andb_false_r. reflexivity. }
  split; [exact E|]. split; [|split; reflexivity].
  intros A. apply adornment_ascii in A.
  unfold isSpace, isEndOfLine.
  replace (r =? 32) with false by (symmetry; apply Z.eqb_neq; lia).
  replace (r =? 9) with false by (symmetry; apply Z.eqb_neq; lia).
  replace (r =? 13) with false by (symmetry; apply Z.eqb_neq; lia).
  replace (r =? 10) with false by (symmetry; apply Z.eqb_neq; lia).
  auto.
Qed.

(** ** Where [lexStart] hands over to [lexSection] *)

(** The statements after the loop of [lexStart]. *)
Lemma lexStart_break_tail (inp : gostring) (l : lexer) :
  good inp l ->
  (b <- get (fun l => start l <? pos l) ;;
   when b (emit itemParagraph) ;;;
   emit itemEOF ;;;
   ret None) l =
  Ret (@None stateFn)
      (emitted itemEOF (if start l <? pos l then emitted itemParagraph l else l)).
Proof.
  intros G. unfold bind, get, when, ret.
  destruct (start l <? pos l) eqn:SP.
  - apply Z.ltb_lt in SP. rewrite (emit_eq inp) by assumption.
    pose proof (good_emit inp itemParagraph l G eq_refl ltac:(discriminate) SP) as G2.
    rewrite (emit_eq inp) by assumption. reflexivity.
  - rewrite (emit_eq inp) by assumption. reflexivity.
Qed.

(** From byte 2 on [lexStart] runs to the end of the input: it returns
    [nil], given one unit of fuel per byte left and one more, and never
    hands over to [lexSection]. *)
Lemma lexStart_from_two (inp : gostring) (fuel : nat) :
  forall l, at_start inp l -> 2 <= pos l ->
  match lexStart fuel l with
  | Ret None _ => True
  | Ret (Some _) _ => False
  | Panic _ => False
  | Spin _ => (fuel <= Z.to_nat (len inp - pos l))%nat
  end.
Proof.
  unfold lexStart.
  induction fuel as [|fuel IH]; intros l H P; [simpl; lia|].
  destruct (lexStart_body_spec inp l H) as (f & l' & E & Q).
  cbn [lexStart_loop]. unfold bind at 1. rewrite E.
  destruct f as [[[|]|]| |]; simpl in Q.
  - contradiction.
  - lia.
  - exact I.
  - destruct Q as (H' & Lp & _). specialize (IH l' H' ltac:(lia)).
    pose proof (g_len inp l' (proj1 H')) as B.
    rewrite (g_input inp l' (proj1 H')) in B.
    destruct (lexStart_loop fuel l') as [[st|] l2|l2|l2]; try exact IH. lia.
  - destruct Q as [G _]. rewrite (lexStart_break_tail inp) by exact G. exact I.
Qed.

Lemma from_zero (s : gostring) : from s 0 = s.
Proof. reflexivity. Qed.

(** The first turn of the loop on a fresh lexer never hands over; it goes
    on at byte 1 exactly when the first rune is one byte wide and no end
    of line, and then nothing is sent yet. *)
Lemma lexStart_first_turn (nm : string) (inp : gostring) :
  exists f l1,
    lexStart_body (lex nm inp) = Ret f l1 /\
    start_post inp (lex nm inp) f l1 /\
    f <> Return (Some lexSectionFn) /\
    (f = Continue -> pos l1 = 1 ->
     isEndOfLine (fst (utf8.DecodeRuneInString inp)) = false /\
     snd (utf8.DecodeRuneInString inp) = 1) /\
    (isEndOfLine (fst (utf8.DecodeRuneInString inp)) = false ->
     snd (utf8.DecodeRuneInString inp) = 1 -> 2 <= len inp ->
     f = Continue /\ l1 = mkLexer nm inp 1 0 1 0 [] 1).
Proof.
  set (l0 := lex nm inp).
  assert (H0 : at_start inp l0).
  { split; [apply good_lex|]. simpl. intros X. discriminate X. }
  destruct (lexStart_body_spec inp l0 H0) as (f & l1 & E & Q).
  exists f, l1. split; [exact E|]. split; [exact Q|].
  assert (NS : f <> Return (Some lexSectionFn)).
  { intros ->. simpl in Q. destruct Q as (_ & P & _). discriminate P. }
  split; [exact NS|].
  destruct (Z.eq_dec (len inp) 0) as [Z0|NZ].
  { (* the empty input *)
    assert (E' : lexStart_body l0 = Ret (Return None) (emitted itemEOF l0)).
    { unfold lexStart_body, bind, get, ret.
      change (len (input l0)) with (len inp).
      apply Z.eqb_eq in Z0. rewrite Z0.
      rewrite (emit_eq inp) by apply good_lex. reflexivity. }
    rewrite E' in E. inversion E; subst f l1.
    split; [intros X; discriminate X|]. intros. lia. }
  assert (R0 : rune_at l0 = fst (utf8.DecodeRuneInString inp)) by reflexivity.
  assert (W0 : width_at l0 = snd (utf8.DecodeRuneInString inp)) by reflexivity.
  pose proof (len_nonneg inp) as Ln.
  rewrite lexStart_body_eq in E by (simpl; lia).
  rewrite R0, W0 in E.
  destruct (isSectionAdornment (fst (utf8.DecodeRuneInString inp))) eqn:A.
  - change (pos l0 =? 1) with false in E. cbv iota in E.
    rewrite advance_eq in E by (simpl; lia).
    assert (C : (pos (set_width l0 (snd (utf8.DecodeRuneInString inp)))
                 <? len (input (set_width l0 (snd (utf8.DecodeRuneInString inp)))))
                = true) by (apply Z.ltb_lt; simpl; lia).
    rewrite C in E. inversion E; subst f l1; clear E.
    destruct (adornment_one_byte inp A) as (b & t & Ei & D).
    assert (EL : isEndOfLine (fst (utf8.DecodeRuneInString inp)) = false).
    { destruct (isEndOfLine (fst (utf8.DecodeRuneInString inp))) eqn:EL;
        [|reflexivity].
      apply isEndOfLine_not_adornment in EL. congruence. }
    split.
    + intros _ _. split; [exact EL|]. rewrite D. reflexivity.
    + intros _ W _. split; [reflexivity|].
      unfold moved, width_at, set_pos, set_width, l0, lex. simpl.
      rewrite from_zero, W. reflexivity.
  - destruct (isEndOfLine (fst (utf8.DecodeRuneInString inp))) eqn:EL.
    + cbv zeta in E.
      change (start l0 <? pos l0) with false in E. cbv iota in E.
      set (lI := ignored (set_width (set_line l0 (line l0 + 1))
                                    (snd (utf8.DecodeRuneInString inp)))) in E.
      assert (PI : pos lI = 1) by reflexivity.
      assert (II : input lI = inp) by reflexivity.
      rewrite advance_eq in E by (rewrite PI; lia).
      split; [|intros X; discriminate X].
      intros -> P1. exfalso.
      destruct (pos lI <? len (input lI)) eqn:C; [|discriminate E].
      inversion E; subst l1; clear E.
      apply Z.ltb_lt in C.
      destruct (width_at_bounds lI) as [W1 _]; [lia|].
      unfold moved in P1. cbn [pos set_pos set_width] in P1. lia.
    + rewrite advance_eq in E by (simpl; lia).
      change (pos l0 <? len (input l0)) with (0 <? len inp) in E.
      assert (C : (0 <? len inp) = true) by (apply Z.ltb_lt; lia).
      rewrite C in E. inversion E; subst f l1; clear E.
      split.
      * intros _ P1. split; [reflexivity|].
        unfold moved in P1. simpl in P1. rewrite W0 in P1. lia.
      * intros _ W _. split; [reflexivity|].
        unfold moved, width_at, set_pos, set_width, l0, lex. simpl.
        rewrite from_zero, W. reflexivity.
Qed.

Lemma enters_section_true (inp : gostring) :
  enters_section inp = true ->
  isEndOfLine (fst (utf8.DecodeRuneInString inp)) = false /\
  snd (utf8.DecodeRuneInString inp) = 1 /\
  isSectionAdornment (fst (utf8.DecodeRuneInString (from inp 1))) = true /\
  snd (utf8.DecodeRuneInString (from inp 1)) = 1 /\
  2 <= len inp.
Proof.
  unfold enters_section. cbv zeta. intros H.
  apply andb_true_iff in H. destruct H as [H A].
  apply andb_true_iff in H. destruct H as [E W].
  apply negb_true_iff in E. apply Z.eqb_eq in W.
  split; [exact E|]. split; [exact W|]. split; [exact A|].
  destruct (adornment_one_byte _ A) as (b & t & F & D).
  split; [rewrite D; reflexivity|].
  destruct inp as [|b0 t0]; [simpl in W; discriminate W|].
  assert (L : len (from (b0 :: t0) 1) = len (b0 :: t0) - 1).
  { apply len_from. unfold len. cbn [List.length]. lia. }
  rewrite F in L. unfold len in *. cbn [List.length] in *. lia.
Qed.

(** The two turns [lexStart] makes before it hands over, or not. *)
Lemma lexStart_hands_over (fuel : nat) (nm : string) (inp : gostring) :
  (enters_section inp = true ->
   lexStart (S (S fuel)) (lex nm inp) =
     Ret (Some lexSectionFn) (section_entry nm inp)) /\
  (enters_section inp = false ->
   forall n l, lexStart n (lex nm inp) <> Ret (Some lexSectionFn) l).
Proof.
  destruct (lexStart_first_turn nm inp) as (f & l1 & E & Q & NS & Only & If).
  split.
  - intros H. apply enters_section_true in H.
    destruct H as (EL & W & A & W1 & L).
    destruct (If EL W L) as [-> ->].
    fold (section_entry nm inp) in E.
    unfold lexStart. cbn [lexStart_loop]. unfold bind. rewrite E.
    assert (R1 : rune_at (section_entry nm inp)
                 = fst (utf8.DecodeRuneInString (from inp 1))) by reflexivity.
    assert (Wd : width_at (section_entry nm inp) = 1) by exact W1.
    rewrite lexStart_body_on_adornment;
      [|simpl; lia|simpl; lia|rewrite R1; exact A].
    rewrite Wd. reflexivity.
  - intros H n l. unfold lexStart.
    destruct n as [|n]; [discriminate|].
    cbn [lexStart_loop]. unfold bind at 1. rewrite E.
    destruct f as [st| |].
    + intros X. inversion X; subst st. apply NS. reflexivity.
    + simpl in Q. destruct Q as (H1 & Lp & _). simpl in Lp.
      destruct (Z.eq_dec (pos l1) 1) as [P1|P1].
      * destruct (Only eq_refl P1) as [EL W].
        assert (A : isSectionAdornment (rune_at l1) = false).
        { unfold rune_at. rewrite (g_input inp l1 (proj1 H1)), P1.
          unfold enters_section in H. cbv zeta in H.
          rewrite EL, W in H. simpl in H. exact H. }
        destruct n as [|n]; [discriminate|].
        destruct (lexStart_body_spec inp l1 H1) as (f1 & l2 & E1 & Q1).
        cbn [lexStart_loop]. unfold bind at 1. rewrite E1.
        destruct f1 as [[[|]|]| |]; simpl in Q1.
        -- contradiction.
        -- destruct Q1 as (_ & _ & A'). congruence.
        -- discriminate.
        -- destruct Q1 as (H2 & Lp2 & _).
           pose proof (lexStart_from_two inp n l2 H2 ltac:(lia)) as T.
           unfold lexStart in T. intros X. rewrite X in T. exact T.
        -- destruct Q1 as [G _].
           rewrite (lexStart_break_tail inp) by exact G. discriminate.
      * pose proof (lexStart_from_two inp n l1 H1 ltac:(lia)) as T.
        unfold lexStart in T. intros X. rewrite X in T. exact T.
    + simpl in Q. destruct Q as [G _].
      rewrite (lexStart_break_tail inp) by exact G. discriminate.
Qed.

(** X6: on a fresh lexer [lexStart] hands over to [lexSection] exactly
    when the first rune of the input is one byte wide and no end of line
    and the rune at byte 1 is an adornment character.  It then does so in
    its second turn, with the cursor at byte 1, the start at byte 0, the
    line counter at 1 and nothing sent; otherwise it never hands over,
    whatever the fuel. *)
Theorem lexStart_hands_over_iff (fuel : nat) (nm : string) (inp : gostring) :
  (enters_section inp = true ->
   lexStart (S (S fuel)) (lex nm inp) =
     Ret (Some lexSectionFn) (section_entry nm inp)) /\
  (enters_section inp = false ->
   forall n l, lexStart n (lex nm inp) <> Ret (Some lexSectionFn) l).
Proof. apply lexStart_hands_over. Qed.

(** ** When a run ends *)

Lemma from_cons_inside (s : gostring) (q : Z) (b : byte) (t : gostring) :
  0 <= q -> from s q = b :: t -> q < len s /\ In b s.
Proof.
  intros Q F. unfold from in F. split.
  - destruct (Z.lt_ge_cases q (len s)) as [L|L]; [exact L|].
    rewrite skipn_all2 in F by (unfold len in L; lia). discriminate F.
  - rewrite <- (firstn_skipn (Z.to_nat q) s). apply in_or_app. right.
    rewrite F. left. reflexivity.
Qed.

Lemma existsb_from (f : byte -> bool) (s : gostring) :
  existsb f s = true ->
  exists q b t, 0 <= q /\ from s q = b :: t /\ f b = true.
Proof.
  induction s as [|a s IH]; simpl; intros H; [discriminate H|].
  apply orb_true_iff in H. destruct H as [H|H].
  - exists 0, a, s. auto with zarith.
  - destruct (IH H) as (q & b & t & Q & F & B).
    exists (q + 1), b, t. split; [lia|]. split; [|exact B].
    unfold from in *. rewrite Z2Nat.inj_add by lia. simpl.
    rewrite Nat.add_1_r. simpl. exact F.
Qed.

Lemma existsb_false_In (f : byte -> bool) (s : gostring) (b : byte) :
  existsb f s = false -> In b s -> f b = false.
Proof.
  intros H I. destruct (f b) eqn:B; [|reflexivity].
  assert (X : existsb f s = true) by (apply existsb_exists; exists b; auto).
  congruence.
Qed.

Lemma run_from_step (n : nat) (f : stateFn) (l : lexer) :
  run_from (S n) (Some f) l =
    match call f n l with
    | Ret st' l' => run_from n st' l'
    | Panic l' => Panic l'
    | Spin l' => Spin l'
    end.
Proof. reflexivity. Qed.

Lemma at_section_entry (nm : string) (inp : gostring) :
  enters_section inp = true -> at_section inp (section_entry nm inp).
Proof.
  intros H. apply enters_section_true in H.
  destruct H as (EL & W & A & W1 & L).
  split; [|split].
  - constructor; simpl; try lia; try reflexivity; constructor.
  - simpl. lia.
  - unfold peek_rune. simpl pos. simpl input.
    destruct (len inp <=? 1) eqn:C; [apply Z.leb_le in C; lia|]. exact A.
Qed.

(** Without an end-of-line byte in the input the loop of [lexSection]
    never leaves and sends nothing. *)
Lemma lexSection_loop_spins (inp : gostring) :
  existsb eol_byte inp = false ->
  forall (m : nat) (l : lexer),
    input l = inp -> 0 <= start l <= pos l -> pos l <= len (input l) ->
    exists l', lexSection_loop m l = Spin l' /\ items l' = items l.
Proof.
  intros NoEol. induction m as [|m IH]; intros l I S P.
  - exists l. split; reflexivity.
  - cbn [lexSection_loop]. unfold bind.
    rewrite lexSection_body_eq by assumption.
    destruct (pos l <? len (input l)) eqn:C.
    + apply Z.ltb_lt in C.
      destruct (width_at_bounds l) as [W1 W2]; [lia|].
      assert (NE : isEndOfLine (rune_at l) = false).
      { destruct (isEndOfLine (rune_at l)) eqn:E; [|reflexivity].
        destruct (eol_rune_is_byte _ E) as (b & t & F & B & _).
        apply from_cons_inside in F; [|lia]. destruct F as [_ F].
        rewrite I in F. rewrite (existsb_false_In _ _ _ NoEol F) in B.
        discriminate B. }
      rewrite NE.
      assert (X : exists l', lexSection_loop m (moved l) = Spin l'
                             /\ items l' = items l).
      { apply (IH (moved l)); simpl; try assumption; lia. }
      destruct (isSectionAdornment (rune_at l)); exact X.
    + apply Z.ltb_ge in C.
      apply (IH (set_width l 0)); simpl; try assumption.
Qed.

(** X7: when [lexStart] hands over to [lexSection] and the input has no
    carriage-return or line-feed byte, the run never ends: whatever the
    fuel it is still looping, and no item has been sent. *)
Theorem run_spins_without_newline (fuel : nat) (nm : string) (inp : gostring) :
  enters_section inp = true ->
  existsb eol_byte inp = false ->
  exists l, run fuel (lex nm inp) = Spin l /\ items l = [].
Proof.
  intros En NoEol.
  destruct (lexStart_hands_over 0 nm inp) as [Hand _].
  specialize (Hand En).
  destruct fuel as [|n]; [exists (lex nm inp); split; reflexivity|].
  unfold run. rewrite run_from_step. cbn [call]. unfold lexStart in *.
  destruct (le_lt_dec 2 n) as [Ge|Lt].
  - rewrite (lexStart_loop_mono 2 _ _ _ Hand n Ge).
    destruct n as [|m]; [lia|].
    rewrite run_from_step. cbn [call].
    pose proof (at_section_entry nm inp En) as (G & S & A).
    assert (EL : isEndOfLine (peek_rune (section_entry nm inp)) = false).
    { destruct (isEndOfLine (peek_rune (section_entry nm inp))) eqn:EL;
        [|reflexivity].
      apply isEndOfLine_not_adornment in EL. congruence. }
    rewrite lexSection_eq by (simpl; try exact EL; destruct G; simpl in *; lia).
    destruct (lexSection_loop_spins inp NoEol m
                (set_width (section_entry nm inp)
                           (peek_width (section_entry nm inp))))
      as (l' & E & I); simpl; try reflexivity; try lia.
    { destruct G; simpl in *; lia. }
    rewrite E. exists l'. auto.
  - (* not enough fuel to reach [lexSection] *)
    destruct (lexStart_first_turn nm inp) as (f & l1 & E & _ & _ & _ & If).
    apply enters_section_true in En. destruct En as (EL & W & _ & _ & L).
    destruct (If EL W L) as [-> ->].
    destruct n as [|[|n]]; [| |lia].
    + exists (lex nm inp). split; reflexivity.
    + cbn [lexStart_loop]. unfold bind at 1. rewrite E.
      eexists. split; reflexivity.
Qed.

Lemma run_spins_without_newline_witness :
  exists l, run 50 (lex "" (str "x-- no newline here")) = Spin l /\ items l = [].
Proof.
  apply (run_spins_without_newline 50 "" (str "x-- no newline here"));
    vm_compute; reflexivity.
Defined.

(** ** Properties kept by every path of the state functions

    A property [J] of the lexer that survives each way the two state
    functions change it holds all along a run; [Jfin] is what the sending
    of the EOF turns it into. *)

Section Preserved.

Variable inp : gostring.
Variables J Jfin : lexer -> Prop.

(** [peek], and [next] at the end of the input, touch the width only. *)
Hypothesis J_width : forall l w, J l -> J (set_width l w).

(** [next] inside the input. *)
Hypothesis J_moved :
  forall l, good inp l -> J l -> pos l < len (input l) -> J (moved l).

(** The end-of-line case of [lexStart]: line bumped, the pending text sent
    as a Paragraph if there is any, the end-of-line byte skipped. *)
Hypothesis J_eol :
  forall l b t,
    good inp l -> J l ->
    from (input l) (pos l) = b :: t -> eol_byte b = true ->
    J (ignored (if start l <? pos l
                then emitted itemParagraph
                             (set_width (set_line l (line l + 1)) (width_at l))
                else set_width (set_line l (line l + 1)) (width_at l))).

(** The end-of-line case of [lexSection]. *)
Hypothesis J_section :
  forall l b t,
    good inp l -> J l -> start l = 0 -> start l < pos l ->
    from (input l) (pos l) = b :: t -> eol_byte b = true ->
    J (ignored (set_line (emitted itemSectionAdornment
                                  (set_width l (width_at l)))
                         (line l + 1))).

(** The end of [lexStart]: the pending text, if any, then the EOF. *)
Hypothesis J_end :
  forall l,
    good inp l -> J l -> pos l = len (input l) ->
    Jfin (emitted itemEOF
                  (if start l <? pos l then emitted itemParagraph l else l)).

Lemma eol_under_cursor (l : lexer) :
  isEndOfLine (rune_at l) = true ->
  exists b t, from (input l) (pos l) = b :: t /\ eol_byte b = true.
Proof.
  intros E. destruct (eol_rune_is_byte _ E) as (b & t & F & B & _).
  exists b, t. auto.
Qed.

Lemma kept_by_advance (l : lexer) (f : flow) (l' : lexer) :
  good inp l -> J l -> advance l = Ret f l' ->
  match f with
  | Continue => J l'
  | Break => J l' /\ pos l' = len (input l')
  | Return _ => False
  end.
Proof.
  intros G H E. pose proof (g_start inp l G). pose proof (g_pos inp l G).
  pose proof (g_len inp l G).
  rewrite advance_eq in E by lia.
  destruct (pos l <? len (input l)) eqn:C; inversion E; subst f l'; clear E.
  - apply Z.ltb_lt in C. apply J_moved; assumption.
  - apply Z.ltb_ge in C. split; [apply J_width; exact H|simpl; lia].
Qed.

Lemma kept_by_lexStart_body (l : lexer) :
  at_start inp l -> J l ->
  exists f l',
    lexStart_body l = Ret f l' /\ start_post inp l f l' /\
    match f with
    | Return None => Jfin l'
    | Return (Some _) => J l' /\ start l' = 0
    | Continue => J l'
    | Break => J l' /\ pos l' = len (input l')
    end.
Proof.
  intros H HJ. destruct H as [G S1].
  destruct (lexStart_body_spec inp l (conj G S1)) as (f & l' & E & Q).
  exists f, l'. split; [exact E|]. split; [exact Q|].
  pose proof (g_start inp l G) as B1. pose proof (g_pos inp l G) as B2.
  pose proof (g_len inp l G) as B3.
  destruct (Z.eq_dec (len (input l)) 0) as [Z0|NZ].
  { assert (E' : lexStart_body l = Ret (Return None) (emitted itemEOF l)).
    { unfold lexStart_body, bind, get, ret.
      apply Z.eqb_eq in Z0. rewrite Z0.
      rewrite (emit_eq inp) by exact G. reflexivity. }
    rewrite E' in E. inversion E; subst f l'.
    pose proof (J_end l G HJ ltac:(lia)) as F.
    assert (C : (start l <? pos l) = false) by (apply Z.ltb_ge; lia).
    rewrite C in F. exact F. }
  rewrite lexStart_body_eq in E by lia.
  destruct (isSectionAdornment (rune_at l)) eqn:A.
  - destruct (pos l =? 1) eqn:P1.
    + inversion E; subst f l'. apply Z.eqb_eq in P1.
      split; [apply J_width; exact HJ|]. simpl. auto.
    + pose proof (kept_by_advance _ _ _ (good_set_width inp l _ G)
                                  (J_width l _ HJ) E) as K.
      destruct f as [[st|]| |]; try contradiction; exact K.
  - destruct (isEndOfLine (rune_at l)) eqn:EL.
    + cbv zeta in E.
      destruct (eol_under_cursor l EL) as (b & t & F & B).
      pose proof (J_eol l b t G HJ F B) as K0.
      pose proof (rune_eol_inside l ltac:(lia) EL) as In.
      assert (G1 : good inp (set_width (set_line l (line l + 1)) (width_at l))).
      { apply good_set_width, good_set_line; exact G. }
      assert (G2 : good inp (ignored
                (if start l <? pos l
                 then emitted itemParagraph
                        (set_width (set_line l (line l + 1)) (width_at l))
                 else set_width (set_line l (line l + 1)) (width_at l)))).
      { destruct (start l <? pos l) eqn:SP.
        - apply Z.ltb_lt in SP. apply good_ignore; [|simpl; lia].
          apply good_emit; [exact G1|reflexivity|discriminate|simpl; lia].
        - apply good_ignore; [exact G1|simpl; lia]. }
      pose proof (kept_by_advance _ _ _ G2 K0 E) as K.
      destruct f as [[st|]| |]; try contradiction; exact K.
    + pose proof (kept_by_advance _ _ _ G HJ E) as K.
      destruct f as [[st|]| |]; try contradiction; exact K.
Qed.

Lemma kept_by_lexStart (fuel : nat) :
  forall l, at_start inp l -> J l ->
  match lexStart fuel l with
  | Ret None l' => Jfin l'
  | Ret (Some lexSectionFn) l' => at_section inp l' /\ J l' /\ start l' = 0
  | Ret (Some lexStartFn) _ => False
  | Panic _ => False
  | Spin l' => J l'
  end.
Proof.
  unfold lexStart.
  induction fuel as [|fuel IH]; intros l H HJ; [exact HJ|].
  destruct (kept_by_lexStart_body l H HJ) as (f & l' & E & Q & K).
  cbn [lexStart_loop]. unfold bind at 1. rewrite E.
  destruct f as [[[|]|]| |]; simpl in Q.
  - contradiction.
  - destruct K as [K1 K2]. split; [apply Q|]. auto.
  - exact K.
  - apply IH; [apply Q|exact K].
  - destruct Q as [G _]. destruct K as [K P].
    rewrite (lexStart_break_tail inp) by exact G.
    apply J_end; assumption.
Qed.

Lemma kept_by_lexSection_body (l : lexer) :
  good inp l -> start l < pos l -> start l = 0 -> J l ->
  exists f l',
    lexSection_body l = Ret f l' /\ good inp l' /\ J l' /\
    match f with
    | Continue => start l' < pos l' /\ start l' = 0
    | Break => 2 <= pos l'
    | Return _ => False
    end.
Proof.
  intros G S S0 HJ.
  destruct (lexSection_body_spec inp l G S) as (f & l' & E & G' & Q).
  exists f, l'. split; [exact E|]. split; [exact G'|].
  pose proof (g_start inp l G) as B1. pose proof (g_len inp l G) as B3.
  rewrite lexSection_body_eq in E by lia.
  destruct (pos l <? len (input l)) eqn:C.
  - apply Z.ltb_lt in C.
    destruct (isSectionAdornment (rune_at l)).
    { inversion E; subst f l'. split; [apply J_moved; assumption|].
      split; [exact Q|exact S0]. }
    destruct (isEndOfLine (rune_at l)) eqn:EL.
    + inversion E; subst f l'. split; [|exact Q].
      destruct (eol_under_cursor l EL) as (b & t & F & B).
      eapply J_section; eassumption.
    + inversion E; subst f l'. split; [apply J_moved; assumption|].
      split; [exact Q|exact S0].
  - inversion E; subst f l'. split; [apply J_width; exact HJ|].
    split; [exact Q|exact S0].
Qed.

Lemma kept_by_lexSection_loop (fuel : nat) :
  forall l, good inp l -> start l < pos l -> start l = 0 -> J l ->
  match lexSection_loop fuel l with
  | Ret _ l' => good inp l' /\ 2 <= pos l' /\ J l'
  | Panic _ => False
  | Spin l' => J l'
  end.
Proof.
  induction fuel as [|fuel IH]; intros l G S S0 HJ; [exact HJ|].
  destruct (kept_by_lexSection_body l G S S0 HJ) as (f & l' & E & G' & K & Q).
  cbn [lexSection_loop]. unfold bind. rewrite E.
  destruct f; [contradiction| |].
  - apply IH; [exact G'|apply Q|apply Q|exact K].
  - simpl. auto.
Qed.

Lemma kept_by_lexSection (fuel : nat) (l : lexer) :
  at_section inp l -> start l = 0 -> J l ->
  match lexSection fuel l with
  | Ret (Some lexStartFn) l' => at_start inp l' /\ J l'
  | Ret _ _ => False
  | Panic _ => False
  | Spin l' => J l'
  end.
Proof.
  intros (G & S & A) S0 HJ.
  pose proof (g_start inp l G) as B1. pose proof (g_len inp l G) as B3.
  assert (EL : isEndOfLine (peek_rune l) = false).
  { destruct (isEndOfLine (peek_rune l)) eqn:EL; [|reflexivity].
    apply isEndOfLine_not_adornment in EL. congruence. }
  rewrite lexSection_eq by (try exact EL; lia).
  pose proof (kept_by_lexSection_loop fuel (set_width l (peek_width l))
                (good_set_width inp l _ G) S S0 (J_width l _ HJ)) as K.
  destruct (lexSection_loop fuel (set_width l (peek_width l))) as [[] l'|l'|l'].
  - destruct K as (G' & P & K). split; [|exact K]. split; [exact G'|lia].
  - exact K.
  - exact K.
Qed.

Lemma kept_by_run_from (fuel : nat) :
  forall st l,
    (st <> None -> at_state inp st l) ->
    match st with
    | Some lexStartFn => J l
    | Some lexSectionFn => J l /\ start l = 0
    | None => Jfin l
    end ->
  match run_from fuel st l with
  | Ret _ l' => Jfin l'
  | Panic _ => False
  | Spin l' => J l'
  end.
Proof.
  induction fuel as [|fuel IH]; intros st l H K.
  - destruct st as [[|]|]; simpl in *; [exact K|apply K|exact K].
  - destruct st as [[|]|]; [| |exact K].
    + rewrite run_from_step. cbn [call].
      specialize (H ltac:(discriminate)). simpl in H, K.
      pose proof (kept_by_lexStart fuel l H K) as P.
      destruct (lexStart fuel l) as [[[|]|] l'|l'|l']; try exact P.
      * contradiction.
      * apply IH; [intros _; simpl; apply P|simpl; split; apply P].
      * apply IH; [intros X; contradiction|exact P].
    + rewrite run_from_step. cbn [call].
      specialize (H ltac:(discriminate)). simpl in H, K. destruct K as [K S0].
      pose proof (kept_by_lexSection fuel l H S0 K) as P.
      destruct (lexSection fuel l) as [[[|]|] l'|l'|l']; try exact P;
        try contradiction.
      apply IH; [intros _; simpl; apply P|simpl; apply P].
Qed.

(** From [lex] on. *)
Lemma kept_by_run (fuel : nat) (nm : string) :
  J (lex nm inp) ->
  match run fuel (lex nm inp) with
  | Ret _ l' => Jfin l'
  | Panic _ => False
  | Spin l' => J l'
  end.
Proof.
  intros K. apply kept_by_run_from; [|exact K].
  intros _. simpl. split; [apply good_lex|]. simpl. intros X. discriminate X.
Qed.

End Preserved.

(** ** Runs that go through [lexSection] *)

Lemma from_cons_succ (a : byte) (s : gostring) (q : Z) :
  0 <= q -> from (a :: s) (Z.succ q) = from s q.
Proof.
  intros Q. unfold from. rewrite Z2Nat.inj_succ by exact Q. reflexivity.
Qed.

Lemma first_eol_spec (s : gostring) :
  forall q, first_eol s = Some q ->
  0 <= q /\
  (exists b t, from s q = b :: t /\ eol_byte b = true) /\
  (forall q' b' t', 0 <= q' < q -> from s q' = b' :: t' -> eol_byte b' = false).
Proof.
  induction s as [|a s IH]; intros q H; [discriminate H|].
  simpl in H. destruct (eol_byte a) eqn:A.
  - inversion H; subst q. split; [lia|]. split; [|intros; lia].
    exists a, s. auto.
  - destruct (first_eol s) as [q0|]; [|discriminate H].
    simpl in H. inversion H; subst q.
    destruct (IH q0 eq_refl) as (Q0 & (b & t & F & B) & First).
    split; [lia|]. split.
    + exists b, t. rewrite from_cons_succ by exact Q0. auto.
    + intros q' b' t' R F'.
      destruct (Z.eq_dec q' 0) as [->|N].
      * rewrite from_zero in F'. inversion F'; subst. exact A.
      * replace q' with (Z.succ (q' - 1)) in F' by lia.
        rewrite from_cons_succ in F' by lia.
        apply (First (q' - 1) b' t'); [lia|exact F'].
Qed.

Lemma first_eol_exists (s : gostring) :
  existsb eol_byte s = true -> exists q, first_eol s = Some q.
Proof.
  induction s as [|a s IH]; simpl; intros H; [discriminate H|].
  destruct (eol_byte a); [exists 0; reflexivity|].
  destruct (IH H) as (q & E). rewrite E. exists (Z.succ q). reflexivity.
Qed.

(** The loop of [lexSection] runs up to the first end-of-line byte ahead,
    sends everything from the start to that byte as one SectionAdornment,
    skips the byte and counts the line. *)
Lemma lexSection_loop_to_eol (inp : gostring) (q : Z) (b : byte) (t : gostring) :
  from inp q = b :: t -> eol_byte b = true ->
  forall (m : nat) (l : lexer),
    good inp l -> start l < pos l -> pos l <= q ->
    (forall q' b' t', pos l <= q' < q -> from inp q' = b' :: t' ->
                      eol_byte b' = false) ->
    (Z.to_nat (q - pos l) < m)%nat ->
    exists l',
      lexSection_loop m l = Ret tt l' /\
      pos l' = q + 1 /\ start l' = q + 1 /\ line l' = line l + 1 /\
      items l' = items l ++
                 [mkItem (elements itemSectionAdornment) itemSectionAdornment
                         (start l) (line l) (slice inp (start l) q)].
Proof.
  intros Fq Bq. induction m as [|m IH]; intros l G S P First Fuel; [lia|].
  pose proof (g_start inp l G) as B1. pose proof (g_len inp l G) as B3.
  pose proof (g_input inp l G) as I.
  destruct (from_cons_inside inp q b t ltac:(lia) Fq) as [Lq _].
  destruct (eol_byte_is_rune b t Bq) as [Dq Eq].
  cbn [lexSection_loop]. unfold bind.
  rewrite lexSection_body_eq by lia.
  assert (C : (pos l <? len (input l)) = true) by (apply Z.ltb_lt; rewrite I; lia).
  rewrite C.
  destruct (Z.eq_dec (pos l) q) as [Pq|Pq].
  - assert (R : rune_at l = byteval b).
    { unfold rune_at. rewrite I, Pq, Fq, Dq. reflexivity. }
    rewrite R, Eq. rewrite (isEndOfLine_not_adornment _ Eq).
    eexists. split; [reflexivity|].
    repeat split; simpl; unfold new_item; simpl; rewrite ?I, ?Pq; reflexivity.
  - assert (NE : isEndOfLine (rune_at l) = false).
    { destruct (isEndOfLine (rune_at l)) eqn:E; [|reflexivity].
      destruct (eol_under_cursor l E) as (b' & t' & F' & B').
      rewrite I in F'. rewrite (First (pos l) b' t') in B' by (lia || exact F').
      discriminate B'. }
    rewrite NE.
    assert (W : pos l + width_at l <= q).
    { assert (A : byteval b < 128).
      { unfold isEndOfLine in Eq. apply orb_true_iff in Eq.
        destruct Eq as [X|X]; apply Z.eqb_eq in X; lia. }
      pose proof (ascii_after_rune (from inp (pos l)) (q - pos l) b t
                                   ltac:(lia)) as K.
      rewrite from_from in K by lia.
      replace (pos l + (q - pos l)) with q in K by lia.
      specialize (K Fq A). unfold width_at. rewrite I. lia. }
    destruct (width_at_bounds l) as [W1 W2]; [lia|].
    assert (X : exists l',
               lexSection_loop m (moved l) = Ret tt l' /\
               pos l' = q + 1 /\ start l' = q + 1 /\
               line l' = line (moved l) + 1 /\
               items l' = items (moved l) ++
                 [mkItem (elements itemSectionAdornment) itemSectionAdornment
                         (start (moved l)) (line (moved l))
                         (slice inp (start (moved l)) q)]).
    { apply IH.
      - apply good_advance; [apply good_set_width; exact G|simpl; lia].
      - simpl. lia.
      - simpl. exact W.
      - intros q' b' t' R. apply First. simpl in R. lia.
      - simpl. lia. }
    destruct (isSectionAdornment (rune_at l)); exact X.
Qed.

Lemma run_from_nil (n : nat) (l : lexer) : run_from n None l = Ret tt l.
Proof. destruct n; reflexivity. Qed.

(** The state functions only ever add items at the end. *)
Lemma lexStart_appends (inp : gostring) (fuel : nat) (l : lexer) (its0 : list item) :
  at_start inp l -> items l = its0 ->
  match lexStart fuel l with
  | Ret _ l' => exists more, items l' = its0 ++ more
  | Panic _ => False
  | Spin l' => exists more, items l' = its0 ++ more
  end.
Proof.
  intros H I.
  pose proof (kept_by_lexStart inp
                (fun l => exists more, items l = its0 ++ more)
                (fun l => exists more, items l = its0 ++ more)) as K.
  specialize (K ltac:(intros l0 w [m E]; exists m; exact E)).
  specialize (K ltac:(intros l0 _ [m E] _; exists m; exact E)).
  assert (K1 : forall l0 b t, good inp l0 ->
            (exists more, items l0 = its0 ++ more) ->
            from (input l0) (pos l0) = b :: t -> eol_byte b = true ->
            exists more,
              items (ignored (if start l0 <? pos l0
                then emitted itemParagraph
                       (set_width (set_line l0 (line l0 + 1)) (width_at l0))
                else set_width (set_line l0 (line l0 + 1)) (width_at l0)))
              = its0 ++ more).
  { intros l0 b t _ [m E] _ _. destruct (start l0 <? pos l0); simpl.
    - rewrite E, <- app_assoc. eexists. reflexivity.
    - exists m. exact E. }
  specialize (K K1). clear K1.
  assert (K3 : forall l0, good inp l0 ->
            (exists more, items l0 = its0 ++ more) ->
            pos l0 = len (input l0) ->
            exists more,
              items (emitted itemEOF
                       (if start l0 <? pos l0
                        then emitted itemParagraph l0 else l0))
              = its0 ++ more).
  { intros l0 _ [m E] _. destruct (start l0 <? pos l0); simpl.
    - rewrite E, <- !app_assoc. eexists. reflexivity.
    - rewrite E, <- app_assoc. eexists. reflexivity. }
  specialize (K K3 fuel l H). clear K3.
  specialize (K ltac:(exists []; rewrite app_nil_r; exact I)).
  destruct (lexStart fuel l) as [[[|]|] l'|l'|l']; try exact K;
    try contradiction. apply K.
Qed.

(** The run on an input that goes through [lexSection] and has an end of
    line. *)
Lemma section_run (nm : string) (inp : gostring) (q : Z) (fuel : nat) :
  enters_section inp = true -> first_eol inp = Some q ->
  (Z.to_nat (len inp) + 4 <= fuel)%nat ->
  exists l rest,
    run fuel (lex nm inp) = Ret tt l /\
    items l = first_line_item inp q :: rest.
Proof.
  intros En Fe Fuel.
  destruct (first_eol_spec inp q Fe) as (Q0 & (b & t & Fq & Bq) & First).
  destruct (from_cons_inside inp q b t Q0 Fq) as [Lq _].
  pose proof (enters_section_true inp En) as (EL & W & A & W1 & L).
  assert (Q1 : 1 <= q).
  { destruct (Z.eq_dec q 0) as [->|N]; [|lia].
    rewrite from_zero in Fq. subst inp.
    destruct (eol_byte_is_rune b t Bq) as [D E].
    rewrite D in EL. simpl in EL. congruence. }
  destruct fuel as [|[|[|n2]]]; try lia.
  unfold run. rewrite run_from_step. cbn [call].
  destruct (lexStart_hands_over n2 nm inp) as [Hand _].
  specialize (Hand En). unfold lexStart in Hand.
  unfold lexStart at 1.
  rewrite (lexStart_loop_mono _ _ _ _ Hand (S (S n2)) ltac:(lia)).
  rewrite run_from_step. cbn [call].
  pose proof (at_section_entry nm inp En) as AS.
  pose proof (lexSection_spec inp (S n2) _ AS) as SP.
  destruct AS as (G & St & Ad).
  assert (PE : isEndOfLine (peek_rune (section_entry nm inp)) = false).
  { destruct (isEndOfLine (peek_rune (section_entry nm inp))) eqn:X;
      [|reflexivity].
    apply isEndOfLine_not_adornment in X. congruence. }
  rewrite lexSection_eq in SP |- * by (simpl; try exact PE; lia).
  destruct (lexSection_loop_to_eol inp q b t Fq Bq (S n2)
              (set_width (section_entry nm inp)
                         (peek_width (section_entry nm inp))))
    as (l2 & E2 & P2 & S2 & L2 & I2).
  { apply good_set_width. exact G. }
  { simpl. lia. }
  { simpl. lia. }
  { intros q' b' t' R. apply First. simpl in R. lia. }
  { simpl. lia. }
  rewrite E2 in SP |- *.
  rewrite run_from_step. cbn [call].
  pose proof (lexStart_from_two inp n2 l2 SP ltac:(lia)) as T.
  pose proof (lexStart_appends inp n2 l2 _ SP I2) as Ap.
  destruct (lexStart n2 l2) as [[st|] l3|l3|l3]; try contradiction.
  - rewrite run_from_nil. destruct Ap as [more Ap].
    exists l3, more. split; [reflexivity|exact Ap].
  - lia.
Qed.

(** X8: the run ends, with any fuel from [len(input) + 4] on, whenever
    [lexStart] does not hand over to [lexSection] or the input has a
    carriage-return or line-feed byte; it has then sent exactly one EOF,
    as its last item. *)
Theorem run_returns (fuel : nat) (nm : string) (inp : gostring) :
  enters_section inp = false \/ existsb eol_byte inp = true ->
  (Z.to_nat (len inp) + 4 <= fuel)%nat ->
  exists l, run fuel (lex nm inp) = Ret tt l /\ ended l.
Proof.
  intros H Fuel.
  assert (R : exists l, run fuel (lex nm inp) = Ret tt l).
  { destruct (enters_section inp) eqn:En.
    - destruct H as [H|H]; [discriminate H|].
      destruct (first_eol_exists inp H) as (q & Fe).
      destruct (section_run nm inp q fuel En Fe Fuel) as (l & rest & E & _).
      exists l. exact E.
    - destruct fuel as [|n]; [lia|].
      unfold run. rewrite run_from_step. cbn [call].
      assert (H0 : at_start inp (lex nm inp)).
      { split; [apply good_lex|]. simpl. intros X. discriminate X. }
      destruct (lexStart_terminates inp n (lex nm inp) H0) as (st & l' & E).
      { simpl. lia. }
      pose proof (lexStart_spec inp n (lex nm inp) H0) as SP.
      destruct (lexStart_hands_over 0 nm inp) as [_ Never].
      specialize (Never En n l').
      rewrite E in SP |- *.
      destruct st as [[|]|]; [contradiction|congruence|].
      rewrite run_from_nil. exists l'. reflexivity. }
  destruct R as (l & E). exists l. split; [exact E|].
  apply (run_ends_in_one_EOF fuel nm inp l E).
Qed.

Lemma run_returns_witness :
  exists l, run 12 (lex "" (str "==" ++ nl ++ str "text")) = Ret tt l /\ ended l.
Proof.
  apply (run_returns 12 "" (str "==" ++ nl ++ str "text"));
    [right; vm_compute; reflexivity|vm_compute; lia].
Defined.

(** X9: when [lexStart] hands over to [lexSection] and the first
    end-of-line byte of the input is at index [q], the run ends and its
    first item is a SectionAdornment at Position 0 with Line 1 whose text
    is the whole first line, bytes [0] to [q] (excluded), whatever comes
    after the second rune. *)
Theorem section_line_is_first_item
        (fuel : nat) (nm : string) (inp : gostring) (q : Z) :
  enters_section inp = true -> first_eol inp = Some q ->
  (Z.to_nat (len inp) + 4 <= fuel)%nat ->
  exists l rest,
    run fuel (lex nm inp) = Ret tt l /\
    items l = first_line_item inp q :: rest.
Proof. apply section_run. Qed.

Lemma section_line_is_first_item_witness :
  exists l rest,
    run 20 (lex "" (str "a=b c" ++ nl ++ str "more")) = Ret tt l /\
    items l = first_line_item (str "a=b c" ++ nl ++ str "more") 5 :: rest.
Proof.
  apply (section_line_is_first_item 20 "" (str "a=b c" ++ nl ++ str "more") 5);
    [vm_compute; reflexivity|vm_compute; reflexivity|vm_compute; lia].
Defined.

(** ** What the items of a run cover *)

Lemma slice_empty (s : gostring) (p : Z) : slice s p p = [].
Proof. unfold slice. rewrite Z.sub_diag. reflexivity. Qed.

Lemma new_item_eof_at (l : lexer) (p : Z) :
  start l = p -> pos l = p ->
  new_item itemEOF l = mkItem (elements itemEOF) itemEOF p (line l) [].
Proof.
  intros S P. unfold new_item. rewrite S, P, slice_empty. reflexivity.
Qed.

(** X2: a run that returns has read the whole input and has sent exactly
    one EOF, as its last item; the EOF carries the empty text and its
    Position is the byte length of the input. *)
Theorem run_ends_at_end_of_input
        (fuel : nat) (nm : string) (inp : gostring) (l : lexer) :
  run fuel (lex nm inp) = Ret tt l ->
  pos l = len inp /\ start l = len inp /\
  exists its ln,
    items l = its ++ [mkItem (elements itemEOF) itemEOF (len inp) ln []] /\
    Forall (fun it => ElementType it <> itemEOF) its.
Proof.
  intros E.
  pose proof (kept_by_run inp (fun _ => True)
    (fun l => pos l = len inp /\ start l = len inp /\
              exists its ln,
                items l = its ++ [mkItem (elements itemEOF) itemEOF
                                         (len inp) ln []])) as K.
  specialize (K ltac:(auto) ltac:(auto) ltac:(auto) ltac:(auto)).
  assert (KE : forall l0, good inp l0 -> True -> pos l0 = len (input l0) ->
     pos (emitted itemEOF (if start l0 <? pos l0
                           then emitted itemParagraph l0 else l0)) = len inp /\
     start (emitted itemEOF (if start l0 <? pos l0
                             then emitted itemParagraph l0 else l0)) = len inp /\
     exists its ln,
       items (emitted itemEOF (if start l0 <? pos l0
                               then emitted itemParagraph l0 else l0))
       = its ++ [mkItem (elements itemEOF) itemEOF (len inp) ln []]).
  { intros l0 G _ P. pose proof (g_input inp l0 G) as I.
    pose proof (g_pos inp l0 G) as B2. rewrite I in P.
    destruct (start l0 <? pos l0) eqn:C.
    - split; [exact P|]. split; [exact P|].
      eexists _, _. unfold emitted at 1. cbn [items set_start send].
      rewrite (new_item_eof_at _ (len inp)) by exact P. reflexivity.
    - apply Z.ltb_ge in C. assert (S0 : start l0 = len inp) by lia.
      split; [exact P|]. split; [exact P|].
      eexists _, _. unfold emitted at 1. cbn [items set_start send].
      rewrite (new_item_eof_at _ (len inp)) by assumption. reflexivity. }
  specialize (K KE fuel nm I). rewrite E in K.
  destruct K as (P & S & its & ln & Its).
  split; [exact P|]. split; [exact S|]. exists its, ln. split; [exact Its|].
  destruct (run_ends_in_one_EOF fuel nm inp l E) as (its' & e & Its' & _ & F).
  rewrite Its in Its'. apply app_inj_tail in Its'. destruct Its' as [-> _].
  exact F.
Qed.

Lemma run_ends_at_end_of_input_witness :
  let l := final (run 9 (lex "" (str "ab" ++ nl ++ str "c"))) in
  pos l = 4 /\ start l = 4 /\
  exists its ln,
    items l = its ++ [mkItem (elements itemEOF) itemEOF 4 ln []] /\
    Forall (fun it => ElementType it <> itemEOF) its.
Proof.
  apply (run_ends_at_end_of_input 9 "" (str "ab" ++ nl ++ str "c")).
  vm_compute. reflexivity.
Defined.

Lemma accounted_more (inp : gostring) (its more : list item) (bound : Z) :
  accounted inp its bound -> accounted inp (its ++ more) bound.
Proof.
  intros A p b t R F. destruct (A p b t R F) as [E|E]; [left; exact E|].
  right. apply Exists_app. left. exact E.
Qed.

(** The bytes up to and including the end-of-line byte under the cursor
    are accounted for once the pending text, if any, is sent. *)
Lemma accounted_through_eol
      (inp : gostring) (l : lexer) (b : byte) (t : gostring)
      (its : list item) :
  good inp l -> accounted inp (items l) (start l) ->
  from (input l) (pos l) = b :: t -> eol_byte b = true ->
  (start l < pos l ->
   exists it more, its = items l ++ it :: more /\
                   Position it = start l /\ len (Value it) = pos l - start l) ->
  (pos l <= start l -> exists more, its = items l ++ more) ->
  accounted inp its (pos l + 1).
Proof.
  intros G A F B Sent Kept p b' t' R F'.
  pose proof (g_input inp l G) as I. pose proof (g_pos inp l G) as B2.
  destruct (Z.eq_dec p (pos l)) as [->|N].
  { left. rewrite I in F. rewrite F in F'. inversion F'; subst b'. exact B. }
  destruct (Z.lt_ge_cases p (start l)) as [C|C].
  - destruct (Z.lt_ge_cases (start l) (pos l)) as [D|D].
    + destruct (Sent D) as (it & more & -> & _).
      apply (accounted_more inp _ _ _ A p b' t'); [lia|exact F'].
    + destruct (Kept D) as (more & ->).
      apply (accounted_more inp _ _ _ A p b' t'); [lia|exact F'].
  - right. destruct (Sent ltac:(lia)) as (it & more & -> & Pi & Li).
    apply Exists_app. right. apply Exists_cons_hd. unfold covers. lia.
Qed.

Lemma len_new_item (inp : gostring) (t : itemElement) (l : lexer) :
  good inp l -> len (Value (new_item t l)) = pos l - start l.
Proof.
  intros G. simpl. apply len_slice.
  - pose proof (g_start inp l G). pose proof (g_pos inp l G). lia.
  - apply (g_len inp l G).
Qed.

(** X3: a run that returns has dropped nothing but end-of-line bytes: every
    byte of the input is a carriage return or a line feed, or lies in the
    text of one of the items sent. *)
Theorem run_accounts_for_every_byte
        (fuel : nat) (nm : string) (inp : gostring) (l : lexer) :
  run fuel (lex nm inp) = Ret tt l ->
  forall p b t, 0 <= p -> from inp p = b :: t ->
    eol_byte b = true \/ Exists (fun it => covers it p) (items l).
Proof.
  intros E.
  pose proof (kept_by_run inp
    (fun l => accounted inp (items l) (start l))
    (fun l => accounted inp (items l) (len inp))) as K.
  specialize (K ltac:(intros l0 w A; exact A)).
  specialize (K ltac:(intros l0 _ A _; exact A)).
  assert (K1 : forall l0 b t, good inp l0 ->
     accounted inp (items l0) (start l0) ->
     from (input l0) (pos l0) = b :: t -> eol_byte b = true ->
     accounted inp
       (items (ignored (if start l0 <? pos l0
          then emitted itemParagraph
                 (set_width (set_line l0 (line l0 + 1)) (width_at l0))
          else set_width (set_line l0 (line l0 + 1)) (width_at l0))))
       (start (ignored (if start l0 <? pos l0
          then emitted itemParagraph
                 (set_width (set_line l0 (line l0 + 1)) (width_at l0))
          else set_width (set_line l0 (line l0 + 1)) (width_at l0))))).
  { intros l0 b t G A F B.
    destruct (start l0 <? pos l0) eqn:C.
    - apply Z.ltb_lt in C. simpl.
      apply (accounted_through_eol inp l0 b t); try assumption.
      + intros _. eexists _, []. split; [reflexivity|].
        split; [reflexivity|].
        apply (len_new_item inp itemParagraph
                 (set_width (set_line l0 (line l0 + 1)) (width_at l0))).
        apply good_set_width, good_set_line. exact G.
      + intros X. lia.
    - apply Z.ltb_ge in C. simpl.
      apply (accounted_through_eol inp l0 b t); try assumption.
      + intros X. lia.
      + intros _. exists []. rewrite app_nil_r. reflexivity. }
  specialize (K K1). clear K1.
  assert (K2 : forall l0 b t, good inp l0 ->
     accounted inp (items l0) (start l0) ->
     start l0 = 0 -> start l0 < pos l0 ->
     from (input l0) (pos l0) = b :: t -> eol_byte b = true ->
     accounted inp
       (items (ignored (set_line (emitted itemSectionAdornment
                                    (set_width l0 (width_at l0)))
                                 (line l0 + 1))))
       (start (ignored (set_line (emitted itemSectionAdornment
                                    (set_width l0 (width_at l0)))
                                 (line l0 + 1))))).
  { intros l0 b t G A _ C F B. simpl.
    apply (accounted_through_eol inp l0 b t); try assumption.
    - intros _. eexists _, []. split; [reflexivity|].
      split; [reflexivity|].
      apply (len_new_item inp itemSectionAdornment (set_width l0 (width_at l0))).
      apply good_set_width. exact G.
    - intros X. lia. }
  specialize (K K2). clear K2.
  assert (K3 : forall l0, good inp l0 ->
     accounted inp (items l0) (start l0) ->
     pos l0 = len (input l0) ->
     accounted inp
       (items (emitted itemEOF (if start l0 <? pos l0
                                then emitted itemParagraph l0 else l0)))
       (len inp)).
  { intros l0 G A P p b t R F.
    pose proof (g_input inp l0 G) as I. rewrite I in P.
    destruct (Z.lt_ge_cases p (start l0)) as [D|D].
    - assert (X : accounted inp
                 (items (emitted itemEOF (if start l0 <? pos l0
                                  then emitted itemParagraph l0 else l0)))
                 (start l0)).
      { destruct (start l0 <? pos l0); simpl.
        - rewrite <- app_assoc. apply accounted_more. exact A.
        - apply accounted_more. exact A. }
      apply (X p b t); [lia|exact F].
    - right. assert (C : (start l0 <? pos l0) = true) by (apply Z.ltb_lt; lia).
      rewrite C. simpl. apply Exists_app. left. apply Exists_app. right.
      apply Exists_cons_hd. unfold covers.
      rewrite (len_new_item inp itemParagraph l0 G). simpl. lia. }
  specialize (K K3 fuel nm). clear K3.
  specialize (K ltac:(intros p b t R; simpl in R; lia)).
  rewrite E in K.
  intros p b t P F. apply (K p b t); [|exact F].
  split; [exact P|]. apply (from_cons_inside inp p b t P F).
Qed.

Lemma run_accounts_for_every_byte_witness :
  eol_byte "b"%byte = true \/
  Exists (fun it => covers it 1)
         (items (final (run 9 (lex "" (str "ab" ++ nl ++ str "c"))))).
Proof.
  apply (run_accounts_for_every_byte
           9 "" (str "ab" ++ nl ++ str "c")
           (final (run 9 (lex "" (str "ab" ++ nl ++ str "c"))))
           ltac:(vm_compute; reflexivity)
           1 "b"%byte (nl ++ str "c")).
  - lia.
  - reflexivity.
Defined.

(** ** Where a SectionAdornment can stand *)

Lemma adornment_only_first_snoc (its : list item) (it : item) :
  adornment_only_first its ->
  (its <> [] -> ElementType it <> itemSectionAdornment) ->
  adornment_only_first (its ++ [it]).
Proof.
  destruct its as [|a rest]; simpl; intros A N; [constructor|].
  apply Forall_app. split; [exact A|].
  constructor; [apply N; discriminate|constructor].
Qed.

(** X4: a SectionAdornment can only be the first item of the stream, at
    Position 0 and with Line 1: every SectionAdornment sent has these two
    values, and no item after the first one is a SectionAdornment.  So a
    run sends at most one. *)
Theorem adornment_is_first_item (fuel : nat) (nm : string) (inp : gostring) :
  Forall (fun it => ElementType it = itemSectionAdornment ->
                    Position it = 0 /\ Line it = 1)
         (tokens fuel nm inp) /\
  adornment_only_first (tokens fuel nm inp).
Proof.
  set (P := fun it => ElementType it = itemSectionAdornment ->
                      Position it = 0 /\ Line it = 1).
  pose proof (kept_by_run inp
    (fun l => (start l = 0 -> items l = [] /\ line l = 1) /\
              Forall P (items l) /\ adornment_only_first (items l))
    (fun l => Forall P (items l) /\ adornment_only_first (items l))) as K.
  specialize (K ltac:(intros l0 w A; exact A)).
  specialize (K ltac:(intros l0 _ A _; exact A)).
  assert (K1 : forall l0 b t, good inp l0 ->
     (start l0 = 0 -> items l0 = [] /\ line l0 = 1) /\
     Forall P (items l0) /\ adornment_only_first (items l0) ->
     from (input l0) (pos l0) = b :: t -> eol_byte b = true ->
     let l1 := ignored (if start l0 <? pos l0
          then emitted itemParagraph
                 (set_width (set_line l0 (line l0 + 1)) (width_at l0))
          else set_width (set_line l0 (line l0 + 1)) (width_at l0)) in
     (start l1 = 0 -> items l1 = [] /\ line l1 = 1) /\
     Forall P (items l1) /\ adornment_only_first (items l1)).
  { intros l0 b t G (_ & F & A) _ _.
    pose proof (g_start inp l0 G). pose proof (g_pos inp l0 G).
    destruct (start l0 <? pos l0); simpl.
    - split; [intros X; lia|]. split.
      + apply Forall_app. split; [exact F|].
        constructor; [|constructor]. unfold P. simpl. discriminate.
      + apply adornment_only_first_snoc; [exact A|]. simpl. discriminate.
    - split; [intros X; lia|]. auto. }
  specialize (K K1). clear K1.
  assert (K2 : forall l0 b t, good inp l0 ->
     (start l0 = 0 -> items l0 = [] /\ line l0 = 1) /\
     Forall P (items l0) /\ adornment_only_first (items l0) ->
     start l0 = 0 -> start l0 < pos l0 ->
     from (input l0) (pos l0) = b :: t -> eol_byte b = true ->
     let l1 := ignored (set_line (emitted itemSectionAdornment
                                    (set_width l0 (width_at l0)))
                                 (line l0 + 1)) in
     (start l1 = 0 -> items l1 = [] /\ line l1 = 1) /\
     Forall P (items l1) /\ adornment_only_first (items l1)).
  { intros l0 b t G (Z0 & _ & _) S0 Lt _ _.
    destruct (Z0 S0) as [E L1]. simpl. rewrite E.
    split; [intros X; lia|]. split.
    - constructor; [|constructor]. unfold P. simpl. auto.
    - simpl. constructor. }
  specialize (K K2). clear K2.
  assert (K3 : forall l0, good inp l0 ->
     (start l0 = 0 -> items l0 = [] /\ line l0 = 1) /\
     Forall P (items l0) /\ adornment_only_first (items l0) ->
     pos l0 = len (input l0) ->
     let l1 := emitted itemEOF (if start l0 <? pos l0
                                then emitted itemParagraph l0 else l0) in
     Forall P (items l1) /\ adornment_only_first (items l1)).
  { intros l0 G (_ & F & A) _.
    destruct (start l0 <? pos l0); simpl.
    - split.
      + repeat (apply Forall_app; split); try exact F;
          (constructor; [|constructor]); unfold P; simpl; discriminate.
      + apply adornment_only_first_snoc;
          [apply adornment_only_first_snoc; [exact A|]|];
          simpl; discriminate.
    - split.
      + apply Forall_app. split; [exact F|].
        constructor; [|constructor]. unfold P. simpl. discriminate.
      + apply adornment_only_first_snoc; [exact A|]. simpl. discriminate. }
  specialize (K K3 fuel nm). clear K3.
  specialize (K ltac:(simpl; repeat split; constructor)).
  unfold tokens.
  destruct (run fuel (lex nm inp)) as [u l|l|l]; simpl;
    [exact K|contradiction|apply K].
Qed.

(** ** Line numbers *)

Lemma slice_split (s : gostring) (a b : Z) :
  0 <= a <= b -> slice s 0 b = slice s 0 a ++ slice s a b.
Proof.
  intros R. unfold slice. rewrite !Z.sub_0_r. change (Z.to_nat 0) with 0%nat.
  simpl skipn.
  rewrite <- (firstn_skipn (Z.to_nat a) (firstn (Z.to_nat b) s)) at 1.
  rewrite firstn_firstn, skipn_firstn_comm.
  replace (Init.Nat.min (Z.to_nat a) (Z.to_nat b)) with (Z.to_nat a) by lia.
  replace (Z.to_nat b - Z.to_nat a)%nat with (Z.to_nat (b - a)) by lia.
  reflexivity.
Qed.

Lemma count_eol_app (s t : gostring) :
  count_eol (s ++ t) = count_eol s + count_eol t.
Proof.
  unfold count_eol. rewrite filter_app, length_app. lia.
Qed.

Lemma count_eol_nonneg (s : gostring) : 0 <= count_eol s.
Proof. unfold count_eol. lia. Qed.

Lemma count_eol_mono (s : gostring) (a b : Z) :
  0 <= a <= b -> count_eol (slice s 0 a) <= count_eol (slice s 0 b).
Proof.
  intros R. rewrite (slice_split s a b R), count_eol_app.
  pose proof (count_eol_nonneg (slice s a b)). lia.
Qed.

Lemma count_eol_prefix (s : gostring) (a : Z) :
  count_eol (slice s 0 a) <= count_eol s.
Proof.
  unfold slice. rewrite Z.sub_0_r. change (Z.to_nat 0) with 0%nat. simpl skipn.
  rewrite <- (firstn_skipn (Z.to_nat a) s) at 2. rewrite count_eol_app.
  pose proof (count_eol_nonneg (skipn (Z.to_nat a) s)). lia.
Qed.

Lemma count_eol_step (s : gostring) (p : Z) (b : byte) (t : gostring) :
  0 <= p -> from s p = b :: t -> eol_byte b = true ->
  count_eol (slice s 0 (p + 1)) = count_eol (slice s 0 p) + 1.
Proof.
  intros P F B. rewrite (slice_split s p (p + 1)) by lia.
  rewrite count_eol_app. f_equal.
  unfold slice. replace (p + 1 - p) with 1 by lia.
  unfold from in F. rewrite F. unfold count_eol. simpl. rewrite B. reflexivity.
Qed.

(** Reads the fields of a lexer written with the setters. *)
Ltac fields :=
  cbn [items line start pos input width ignored emitted
       set_start set_pos set_line set_width send new_item
       Line Position ElementType Value].

(** X5: along the stream the Line values never decrease, and none exceeds
    one plus the number of carriage-return and line-feed bytes of the
    input. *)
Theorem lines_never_decrease (fuel : nat) (nm : string) (inp : gostring) :
  StronglySorted (fun a b => Line a <= Line b) (tokens fuel nm inp) /\
  Forall (fun it => Line it <= 1 + count_eol inp) (tokens fuel nm inp).
Proof.
  set (Sorted := StronglySorted (fun a b : item => Line a <= Line b)).
  set (Low := fun (n : Z) (its : list item) => Forall (fun it => Line it <= n) its).
  pose proof (kept_by_run inp
    (fun l => Sorted (items l) /\ Low (line l) (items l) /\
              Low (1 + count_eol inp) (items l) /\
              line l <= 1 + count_eol (slice inp 0 (start l)))
    (fun l => Sorted (items l) /\ Low (1 + count_eol inp) (items l))) as K.
  specialize (K ltac:(intros l0 w A; exact A)).
  specialize (K ltac:(intros l0 _ A _; exact A)).
  assert (Up : forall n m its, n <= m -> Low n its -> Low m its).
  { intros n m its Le F. unfold Low in *.
    eapply Forall_impl; [|exact F]. simpl. intros a Ha. lia. }
  assert (Snoc : forall its it, Sorted its -> Low (Line it) its ->
                                Sorted (its ++ [it])).
  { intros its it S F. apply StronglySorted_snoc; [exact S|exact F]. }
  assert (K1 : forall l0 b t, good inp l0 ->
     Sorted (items l0) /\ Low (line l0) (items l0) /\
     Low (1 + count_eol inp) (items l0) /\
     line l0 <= 1 + count_eol (slice inp 0 (start l0)) ->
     from (input l0) (pos l0) = b :: t -> eol_byte b = true ->
     let l1 := ignored (if start l0 <? pos l0
          then emitted itemParagraph
                 (set_width (set_line l0 (line l0 + 1)) (width_at l0))
          else set_width (set_line l0 (line l0 + 1)) (width_at l0)) in
     Sorted (items l1) /\ Low (line l1) (items l1) /\
     Low (1 + count_eol inp) (items l1) /\
     line l1 <= 1 + count_eol (slice inp 0 (start l1))).
  { intros l0 b t G (S & F & U & C) Fr B.
    pose proof (g_start inp l0 G). pose proof (g_pos inp l0 G).
    rewrite (g_input inp l0 G) in Fr.
    pose proof (count_eol_step inp (pos l0) b t ltac:(lia) Fr B) as St.
    pose proof (count_eol_mono inp (start l0) (pos l0) ltac:(lia)) as Mo.
    pose proof (count_eol_prefix inp (pos l0 + 1)) as Pr.
    destruct (start l0 <? pos l0); fields.
    - split; [apply Snoc; [exact S|apply (Up (line l0)); [fields; lia|exact F]]|].
      split; [apply Forall_app; split;
              [apply (Up (line l0)); [lia|exact F]
              |constructor; [fields; lia|constructor]]|].
      split; [apply Forall_app; split;
              [exact U|constructor; [fields; lia|constructor]]|].
      lia.
    - split; [exact S|]. split; [apply (Up (line l0)); [lia|exact F]|].
      split; [exact U|lia]. }
  specialize (K K1). clear K1.
  assert (K2 : forall l0 b t, good inp l0 ->
     Sorted (items l0) /\ Low (line l0) (items l0) /\
     Low (1 + count_eol inp) (items l0) /\
     line l0 <= 1 + count_eol (slice inp 0 (start l0)) ->
     start l0 = 0 -> start l0 < pos l0 ->
     from (input l0) (pos l0) = b :: t -> eol_byte b = true ->
     let l1 := ignored (set_line (emitted itemSectionAdornment
                                    (set_width l0 (width_at l0)))
                                 (line l0 + 1)) in
     Sorted (items l1) /\ Low (line l1) (items l1) /\
     Low (1 + count_eol inp) (items l1) /\
     line l1 <= 1 + count_eol (slice inp 0 (start l1))).
  { intros l0 b t G (S & F & U & C) _ _ Fr B.
    pose proof (g_start inp l0 G). pose proof (g_pos inp l0 G).
    rewrite (g_input inp l0 G) in Fr.
    pose proof (count_eol_step inp (pos l0) b t ltac:(lia) Fr B) as St.
    pose proof (count_eol_mono inp (start l0) (pos l0) ltac:(lia)) as Mo.
    pose proof (count_eol_prefix inp (pos l0 + 1)) as Pr.
    fields.
    split; [apply Snoc; [exact S|exact F]|].
    split; [apply Forall_app; split;
            [apply (Up (line l0)); [lia|exact F]
            |constructor; [fields; lia|constructor]]|].
    split; [apply Forall_app; split;
            [exact U|constructor; [fields; lia|constructor]]|].
    lia. }
  specialize (K K2). clear K2.
  assert (K3 : forall l0, good inp l0 ->
     Sorted (items l0) /\ Low (line l0) (items l0) /\
     Low (1 + count_eol inp) (items l0) /\
     line l0 <= 1 + count_eol (slice inp 0 (start l0)) ->
     pos l0 = len (input l0) ->
     let l1 := emitted itemEOF (if start l0 <? pos l0
                                then emitted itemParagraph l0 else l0) in
     Sorted (items l1) /\ Low (1 + count_eol inp) (items l1)).
  { intros l0 G (S & F & U & C) _.
    pose proof (count_eol_prefix inp (start l0)) as Pr.
    destruct (start l0 <? pos l0); fields.
    - split.
      + apply Snoc; [apply Snoc; [exact S|exact F]|].
        apply Forall_app. split; [exact F|].
        constructor; [fields; lia|constructor].
      + repeat (apply Forall_app; split); try exact U;
          (constructor; [fields; lia|constructor]).
    - split; [apply Snoc; [exact S|exact F]|].
      apply Forall_app. split; [exact U|].
      constructor; [fields; lia|constructor]. }
  specialize (K K3 fuel nm). clear K3.
  specialize (K ltac:(simpl; repeat split; try constructor;
                      pose proof (count_eol_nonneg (slice inp 0 0)); lia)).
  unfold tokens.
  destruct (run fuel (lex nm inp)) as [u l|l|l]; simpl;
    [exact K|contradiction|split; apply K].
Qed.

(** ** Further properties of every run *)

(** X1: a run started by [lex] never panics: none of the slice
    expressions of [emit], [current], [next] and the logging calls is
    ever evaluated with indices out of range, whatever the input, also
    on invalid UTF-8 and on runs that never end. *)
Theorem run_never_panics (fuel : nat) (nm : string) (inp : gostring) :
  match run fuel (lex nm inp) with
  | Panic _ => False
  | _ => True
  end.
Proof.
  pose proof (run_inv inp fuel nm) as H.
  destruct (run fuel (lex nm inp)); [exact I|exact H|exact I].
Qed.

(** X10: the loop of [lexStart] always ends: on a fresh lexer [lexStart]
    returns within one turn per byte of the input and one more, for every
    input.  The only loop that may go on for ever is that of
    [lexSection]. *)
Theorem lexStart_always_returns (nm : string) (inp : gostring) :
  exists st l, lexStart (S (Z.to_nat (len inp))) (lex nm inp) = Ret st l.
Proof.
  apply (lexStart_terminates inp).
  - split; [apply good_lex|]. simpl. intros X. discriminate X.
  - simpl. lia.
Qed.

(** X15: no Paragraph and no SectionAdornment is sent with an empty text:
    every item but the EOF carries at least one byte. *)
Theorem items_have_text (fuel : nat) (nm : string) (inp : gostring) :
  Forall (fun it => ElementType it <> itemEOF -> Value it <> [])
         (tokens fuel nm inp).
Proof.
  eapply Forall_impl; [|apply tokens_ok].
  intros it [_ _ _ _ _ _ Ne] N E. specialize (Ne N).
  rewrite E in Ne. unfold len in Ne. simpl in Ne. lia.
Qed.

Lemma new_item_end (inp : gostring) (t : itemElement) (l : lexer) :
  good inp l ->
  Position (new_item t l) + len (Value (new_item t l)) = pos l.
Proof.
  intros G. rewrite (len_new_item inp t l G). simpl. lia.
Qed.

(** X16: the text of every item ends at the end of a line: right before a
    carriage-return or line-feed byte, or at the end of the input.  No
    item stops in the middle of a line. *)
Theorem items_end_at_line_ends (fuel : nat) (nm : string) (inp : gostring) :
  Forall (ends_line inp) (tokens fuel nm inp).
Proof.
  pose proof (kept_by_run inp
    (fun l => Forall (ends_line inp) (items l))
    (fun l => Forall (ends_line inp) (items l))) as K.
  specialize (K ltac:(intros l0 w A; exact A)).
  specialize (K ltac:(intros l0 _ A _; exact A)).
  assert (K1 : forall l0 b t, good inp l0 ->
     Forall (ends_line inp) (items l0) ->
     from (input l0) (pos l0) = b :: t -> eol_byte b = true ->
     Forall (ends_line inp)
       (items (ignored (if start l0 <? pos l0
          then emitted itemParagraph
                 (set_width (set_line l0 (line l0 + 1)) (width_at l0))
          else set_width (set_line l0 (line l0 + 1)) (width_at l0))))).
  { intros l0 b t G F Fr B. rewrite (g_input inp l0 G) in Fr.
    destruct (start l0 <? pos l0); fields; [|exact F].
    apply Forall_app. split; [exact F|]. constructor; [|constructor].
    right. exists b, t. split; [|exact B].
    rewrite (new_item_end inp) by (apply good_set_width, good_set_line; exact G).
    exact Fr. }
  specialize (K K1). clear K1.
  assert (K2 : forall l0 b t, good inp l0 ->
     Forall (ends_line inp) (items l0) ->
     start l0 = 0 -> start l0 < pos l0 ->
     from (input l0) (pos l0) = b :: t -> eol_byte b = true ->
     Forall (ends_line inp)
       (items (ignored (set_line (emitted itemSectionAdornment
                                    (set_width l0 (width_at l0)))
                                 (line l0 + 1))))).
  { intros l0 b t G F _ _ Fr B. rewrite (g_input inp l0 G) in Fr.
    fields. apply Forall_app. split; [exact F|]. constructor; [|constructor].
    right. exists b, t. split; [|exact B].
    rewrite (new_item_end inp) by (apply good_set_width; exact G).
    exact Fr. }
  specialize (K K2). clear K2.
  assert (K3 : forall l0, good inp l0 ->
     Forall (ends_line inp) (items l0) ->
     pos l0 = len (input l0) ->
     Forall (ends_line inp)
       (items (emitted itemEOF (if start l0 <? pos l0
                                then emitted itemParagraph l0 else l0)))).
  { intros l0 G F P. pose proof (g_input inp l0 G) as I. rewrite I in P.
    destruct (start l0 <? pos l0) eqn:C.
    - apply Z.ltb_lt in C.
      pose proof (good_emit inp itemParagraph l0 G eq_refl
                            ltac:(discriminate) C) as G2.
      fold (emitted itemParagraph l0) in G2.
      unfold emitted at 1. cbn [items set_start send].
      apply Forall_app. split.
      + unfold emitted. cbn [items set_start send].
        apply Forall_app. split; [exact F|]. constructor; [|constructor].
        left. rewrite (new_item_end inp) by exact G. exact P.
      + constructor; [|constructor]. left.
        rewrite (new_item_end inp) by exact G2. exact P.
    - unfold emitted. cbn [items set_start send].
      apply Forall_app. split; [exact F|]. constructor; [|constructor].
      left. rewrite (new_item_end inp) by exact G. exact P. }
  specialize (K K3 fuel nm). clear K3.
  specialize (K ltac:(constructor)).
  unfold tokens.
  destruct (run fuel (lex nm inp)) as [u l|l|l]; simpl;
    [exact K|contradiction|exact K].
Qed.
